(** * Pipeline orchestration of the ANAR system

    A shallow embedding of [anar/pipeline/stages.py] (stage records, the
    stage executor, the stage manager and its dependency ordering) and of
    the batch and checkpoint logic of [anar/pipeline/enhanced_pipeline.py],
    of the error handler of [anar/utils/error_handler.py] and of the cache
    and batch methods of the optimizer of [anar/utils/optimizer.py],
    followed by the properties of that code.

    Conventions of the embedding:
    - a Python call either returns a value or raises; this is [outcome];
    - an exception object is its class name, the text [str(e)] gives, and
      the exception that was being handled when it was raised
      ([__context__], which Python sets on every [raise] inside an
      [except] block).  Only instances of [Exception] are modelled: the
      interpreter's control signals ([KeyboardInterrupt], [SystemExit],
      [asyncio.CancelledError]) are outside the model;
    - [async]/[await] is transparent: awaiting a coroutine yields what
      the coroutine returns or raises.  The one place where scheduling is
      visible, [asyncio.gather], gets an explicit scheduling argument;
    - [get_execution_order] is the traversal on a stack with room for
      every stage; [get_execution_order_within] is the same traversal
      under the interpreter's recursion limit, where a call that finds no
      room on the stack raises [RecursionError]. *)

From Stdlib Require Import ZArith Lia.
From stdpp Require Import base strings list gmap sets relations pretty.

#[local] Set Warnings "-clear-no-such-hyp".

(** ** Exceptions and outcomes *)

#[warnings="-register-all"] Inductive exn : Type :=
  Exn { exn_class : string; exn_str : string; exn_context : option exn }.

Inductive outcome (A : Type) : Type :=
| Returned (a : A)
| Raised (e : exn).
Arguments Returned {A} a.
Arguments Raised {A} e.

(** [raise ValueError(msg)] outside of any handler. *)
Definition ValueError (msg : string) : exn :=
  {| exn_class := "ValueError"; exn_str := msg; exn_context := None |}.

(** [raise KeyError(key)]: [str] of a [KeyError] is the [repr] of the key. *)
Definition KeyError (key : string) : exn :=
  {| exn_class := "KeyError"; exn_str := "'" +:+ key +:+ "'";
     exn_context := None |}.

(** [raise PipelineStageError(msg)] inside [except Exception as e]. *)
Definition PipelineStageError (msg : string) (e : exn) : exn :=
  {| exn_class := "PipelineStageError"; exn_str := msg;
     exn_context := Some e |}.

(** ** Calls made on a stage's functions

    The executor calls three user-supplied functions.  The model records
    each call in a trace, so that "how often" and "before anything else"
    can be stated; the trace is ghost state, the code keeps no log. *)

Inductive call : Type :=
| CallProcessor (stage : string)
| CallValidator (stage : string)
| CallRecovery (stage : string).

Definition traced (A : Type) : Type := (outcome A * list call)%type.

Definition throw {A} (e : exn) : traced A := (Raised e, []).

Definition invoke {A} (c : call) (o : outcome A) : traced A := (o, [c]).

Global Instance traced_ret : MRet traced := λ A a, (Returned a, []).

Global Instance traced_bind : MBind traced := λ A B k m,
  match m with
  | (Returned a, t) => let '(r, t') := k a in (r, t ++ t')
  | (Raised e, t) => (Raised e, t)
  end.

(** [try: m  except Exception as e: h e] *)
Definition try_except {A} (m : traced A) (h : exn → traced A) : traced A :=
  match m with
  | (Returned a, t) => (Returned a, t)
  | (Raised e, t) => let '(r, t') := h e in (r, t ++ t')
  end.

(** An insertion-ordered [dict] with string keys: assignment to a present
    key replaces the value in place, assignment to a new key appends. *)
Fixpoint dict_set {V} (k : string) (v : V) (d : list (string * V))
  : list (string * V) :=
  match d with
  | [] => [(k, v)]
  | (k', v') :: d' =>
      if decide (k = k') then (k', v) :: d' else (k', v') :: dict_set k v d'
  end.

Fixpoint dict_get {V} (k : string) (d : list (string * V)) : option V :=
  match d with
  | [] => None
  | (k', v') :: d' => if decide (k = k') then Some v' else dict_get k d'
  end.

(** ** [stages.py] *)

Section Stages.
Context {Data Ctx Config : Type}.

(** [class PipelineStage] *)
Record PipelineStage : Type := {
  name : string;
  processor : Data → outcome Data;
  validator : Data → outcome bool;
  recovery : option (Data → option Ctx → outcome Data);
  config : option Config
}.

(** [StageExecutor.execute] for the executor built on [stage]. *)
Definition execute (stage : PipelineStage) (data : Data)
    (context : option Ctx) : traced Data :=
  try_except
    (result ← invoke (CallProcessor (name stage)) (processor stage data) ;
     valid ← invoke (CallValidator (name stage)) (validator stage result);
     if negb valid then
       match recovery stage with
       | Some recover =>
           invoke (CallRecovery (name stage)) (recover result context)
       | None =>
           throw (ValueError
                    ("Stage " +:+ name stage +:+ " validation failed"))
       end
     else mret result)
    (λ e, throw (PipelineStageError
                   ("Stage " +:+ name stage +:+ " failed: " +:+ exn_str e)
                   e)).

(** [class StageManager]: [stages] keeps registration order, which the
    ordering iterates over; [dependencies] is only ever looked up. *)
Record StageManager : Type := {
  stages : list (string * PipelineStage);
  dependencies : gmap string (list string)
}.

(** [StageManager.__init__] *)
Definition new_manager : StageManager :=
  {| stages := []; dependencies := ∅ |}.

Definition stage_names (m : StageManager) : list string := (stages m).*1.

(** [self.dependencies.get(stage_name, [])] *)
Definition deps_of (m : StageManager) (stage_name : string) : list string :=
  default [] (dependencies m !! stage_name).

(** Truth value of an [Optional[List[str]]]: [None] and [[]] are false. *)
Definition nonempty_deps (dependencies : option (list string))
  : option (list string) :=
  match dependencies with
  | Some (d :: ds) => Some (d :: ds)
  | _ => None
  end.

(** [StageManager.register_stage]: the method returns [None] and has no
    [raise]; the second component is the manager after the call. *)
Definition register_stage (stage : PipelineStage)
    (deps : option (list string)) (m : StageManager)
  : outcome unit * StageManager :=
  let stages' := dict_set (name stage) stage (stages m) in
  let dependencies' :=
    match nonempty_deps deps with
    | Some ds => <[name stage := ds]> (dependencies m)
    | None => dependencies m
    end in
  (Returned tt, {| stages := stages'; dependencies := dependencies' |}).

(** A registration phase: a sequence of [register_stage] calls. *)
Definition register_all
    (regs : list (PipelineStage * option (list string)))
    (m : StageManager) : StageManager :=
  foldl (λ m r, (register_stage r.1 r.2 m).2) m regs.

(** *** [get_execution_order]

    The local state of the traversal is the [visited] set and the
    [order] list.  The nested function [visit] recurses through the
    dependencies; the model bounds the recursion depth by [fuel] and
    returns [None] when the bound is hit. *)
Definition dfs_state : Type := (gset string * list string)%type.

Definition visitor : Type :=
  string → dfs_state → option (outcome dfs_state).

(** [for dep in self.dependencies.get(stage_name, []): ...] *)
Fixpoint for_each_dep (m : StageManager) (visit_rec : visitor)
    (deps : list string) (st : dfs_state) : option (outcome dfs_state) :=
  match deps with
  | [] => Some (Returned st)
  | dep :: deps' =>
      if decide (dep ∈ stage_names m) then
        match visit_rec dep st with
        | Some (Returned st') => for_each_dep m visit_rec deps' st'
        | r => r
        end
      else Some (Raised (ValueError ("Unknown dependency: " +:+ dep)))
  end.

(** [def visit(stage_name)] *)
Fixpoint visit (fuel : nat) (m : StageManager) (stage_name : string)
    (st : dfs_state) : option (outcome dfs_state) :=
  match fuel with
  | O => None
  | S fuel' =>
      let '(visited, order) := st in
      if decide (stage_name ∈ visited) then Some (Returned st)
      else
        let visited := {[stage_name]} ∪ visited in
        match for_each_dep m (visit fuel' m) (deps_of m stage_name)
                (visited, order) with
        | Some (Returned (visited, order)) =>
            Some (Returned (visited, order ++ [stage_name]))
        | r => r
        end
  end.

(** [for stage_name in self.stages: visit(stage_name)] *)
Fixpoint for_each_stage (visit_rec : visitor) (names : list string)
    (st : dfs_state) : option (outcome dfs_state) :=
  match names with
  | [] => Some (Returned st)
  | stage_name :: names' =>
      match visit_rec stage_name st with
      | Some (Returned st') => for_each_stage visit_rec names' st'
      | r => r
      end
  end.

Definition get_execution_order_fuel (fuel : nat) (m : StageManager)
  : option (outcome (list string)) :=
  match for_each_stage (visit fuel m) (stage_names m) (∅, []) with
  | Some (Returned (_, order)) => Some (Returned order)
  | Some (Raised e) => Some (Raised e)
  | None => None
  end.

(** The traversal on a stack with room for every stage: the recursion
    of [visit] is never deeper than the number of registered stages plus
    one (see [get_execution_order_terminates]).  The traversal under the
    interpreter's recursion limit is [get_execution_order_within]. *)
Definition get_execution_order (m : StageManager)
  : option (outcome (list string)) :=
  get_execution_order_fuel (S (length (stages m))) m.

(** [StageManager.execute_stages]: the loop over the computed order. *)
Fixpoint run_stages (m : StageManager) (order : list string)
    (result : Data) (context : option Ctx) : traced Data :=
  match order with
  | [] => mret result
  | stage_name :: order' =>
      match dict_get stage_name (stages m) with
      | None => throw (KeyError stage_name)
      | Some stage =>
          result ← execute stage result context;
          run_stages m order' result context
      end
  end.

Definition execute_stages (m : StageManager) (data : Data)
    (context : option Ctx) : option (traced Data) :=
  match get_execution_order m with
  | None => None
  | Some (Raised e) => Some (throw e)
  | Some (Returned order) => Some (run_stages m order data context)
  end.

(** *** Vocabulary of the properties *)

(** [d] is a declared prerequisite of [s]. *)
Definition depends_on (m : StageManager) (s d : string) : Prop :=
  d ∈ deps_of m s.

Definition all_deps_registered (m : StageManager) : Prop :=
  ∀ s d, s ∈ stage_names m → depends_on m s d → d ∈ stage_names m.

Definition on_cycle (m : StageManager) (s : string) : Prop :=
  tc (depends_on m) s s.

Definition acyclic (m : StageManager) : Prop :=
  ∀ s, s ∈ stage_names m → ¬ on_cycle m s.

(** [a] occurs at an earlier position of [l] than [b]. *)
Definition precedes (l : list string) (a b : string) : Prop :=
  ∃ i j, l !! i = Some a ∧ l !! j = Some b ∧ i < j.

(** [raise ValueError(f"Unknown dependency: {dep}")] *)
Definition unknown_dependency (dep : string) : exn :=
  ValueError ("Unknown dependency: " +:+ dep).

(** The exception [execute] raises when [e] was raised inside its
    [try] block. *)
Definition stage_failed (stage : PipelineStage) (e : exn) : exn :=
  PipelineStageError
    ("Stage " +:+ name stage +:+ " failed: " +:+ exn_str e) e.

Definition wrap_failure (stage : PipelineStage) (o : outcome Data)
  : outcome Data :=
  match o with
  | Returned r => Returned r
  | Raised e => Raised (stage_failed stage e)
  end.

(** The names of [stage_names], as a set. *)
Definition registered (m : StageManager) : gset string :=
  list_to_set (stage_names m).

(** Every stage comes after each of its prerequisites, except for
    prerequisites that can reach the stage back through dependencies. *)
Definition sorted_upto_cycles (m : StageManager) (order : list string)
  : Prop :=
  ∀ j x d, order !! j = Some x → depends_on m x d →
    (∃ i, i < j ∧ order !! i = Some d) ∨ tc (depends_on m) d x.

(** What a run of visits on [targets] from state [st] guarantees of the
    state [st'] it returns: [order] grew by exactly the newly visited
    names, each once; the targets are visited; every newly ordered
    stage has registered prerequisites; and the order stays sorted when
    every stage that is visited but not yet ordered reaches the
    targets. *)
Definition visit_post (m : StageManager) (targets : list string)
    (st st' : dfs_state) : Prop :=
  ∃ new,
    st'.2 = st.2 ++ new
    ∧ NoDup new
    ∧ (∀ x, x ∈ new ↔ x ∈ st'.1 ∧ x ∉ st.1)
    ∧ st.1 ⊆ st'.1
    ∧ (∀ d, d ∈ targets → d ∈ st'.1 ∧ d ∈ stage_names m)
    ∧ (∀ x, x ∈ new →
         x ∈ stage_names m
         ∧ (∀ d, depends_on m x d → d ∈ stage_names m))
    ∧ ((∀ y d, y ∈ st.1 → y ∉ st.2 → d ∈ targets →
               tc (depends_on m) y d) →
       sorted_upto_cycles m st.2 → sorted_upto_cycles m st'.2).

Definition dfs_spec (m : StageManager) (targets : list string)
    (st : dfs_state) (r : option (outcome dfs_state)) : Prop :=
  match r with
  | None => False
  | Some (Raised e) =>
      ∃ s d, s ∈ stage_names m ∧ depends_on m s d
             ∧ (d ∉ stage_names m) ∧ e = unknown_dependency d
  | Some (Returned st') => visit_post m targets st st'
  end.

(** [f] behaves as [visit] whenever fewer than [n] registered stages
    are unvisited. *)
Definition visitor_ok (m : StageManager) (n : nat) (f : visitor) : Prop :=
  ∀ s st, s ∈ stage_names m → size (registered m ∖ st.1) < n →
          dfs_spec m [s] st (f s st).

Definition order_spec (m : StageManager)
    (r : option (outcome (list string))) : Prop :=
  match r with
  | None => False
  | Some (Raised e) =>
      ∃ s d, s ∈ stage_names m ∧ depends_on m s d
             ∧ (d ∉ stage_names m) ∧ e = unknown_dependency d
  | Some (Returned order) =>
      NoDup order
      ∧ (∀ x, x ∈ order ↔ x ∈ stage_names m)
      ∧ all_deps_registered m
      ∧ sorted_upto_cycles m order
  end.


(** A decidable form of [all_deps_registered]. *)
Definition deps_registered_list (m : StageManager) : Prop :=
  Forall (λ s, Forall (λ d, d ∈ stage_names m) (deps_of m s))
    (stage_names m).

(** [rank] decreases along every declared dependency. *)
Definition ranked (m : StageManager) (rank : string → nat) : Prop :=
  Forall (λ s, Forall (λ d, rank d < rank s) (deps_of m s))
    (stage_names m).


End Stages.

Arguments PipelineStage : clear implicits.
Arguments StageManager : clear implicits.

(** ** [enhanced_pipeline.py]: batches and checkpoints *)

(** [range(start, stop, step)] for a positive [step]; at most [fuel]
    elements are produced. *)
Fixpoint range_from (fuel start stop step : nat) : list nat :=
  match fuel with
  | O => []
  | S fuel' =>
      if decide (start < stop)
      then start :: range_from fuel' (start + step) stop step
      else []
  end.

(** [range(0, stop, step)]: a zero step is refused, a negative step from
    [0] up to a length is empty, and a positive step yields fewer than
    [stop + 1] elements (see [range_from_length]). *)
Definition range (stop : nat) (step : Z) : outcome (list nat) :=
  if decide (step = 0)%Z
  then Raised (ValueError "range() arg 3 must not be zero")
  else if decide (step < 0)%Z then Returned []
  else Returned (range_from stop 0 stop (Z.to_nat step)).

(** [l[i:j]] for [0 <= i <= j]: a slice stops at the end of the list. *)
Definition slice {A} (l : list A) (i j : nat) : list A :=
  take (j - i) (drop i l).

Fixpoint raised_of {A} (outcomes : list (outcome A)) : list exn :=
  match outcomes with
  | [] => []
  | Returned _ :: os => raised_of os
  | Raised e :: os => e :: raised_of os
  end.

Fixpoint returned_of {A} (outcomes : list (outcome A)) : list A :=
  match outcomes with
  | [] => []
  | Returned a :: os => a :: returned_of os
  | Raised _ :: os => returned_of os
  end.

(** The slices of width [B] at the indices [range_from fuel start _ B]. *)
Definition chunks_from {A} (fuel start B : nat) (l : list A)
  : list (list A) :=
  map (λ i, slice l i (i + B)) (range_from fuel start (length l) B).

(** The least integer that is no less than [a / b], for [0 < b]. *)
Definition ceil_div (a b : Z) : Z := ((a + b - 1) / b)%Z.

(** [needle in hay] on strings. *)
Fixpoint contains (needle hay : string) : bool :=
  String.prefix needle hay
  || match hay with
     | EmptyString => false
     | String _ hay' => contains needle hay'
     end.

(** [batches = [texts[i:i + batch_size]
                for i in range(0, len(texts), batch_size)]] *)
Definition make_batches {A} (texts : list A) (batch_size : Z)
  : outcome (list (list A)) :=
  match range (length texts) batch_size with
  | Raised e => Raised e
  | Returned starts =>
      Returned (map (λ i, slice texts i (i + Z.to_nat batch_size)) starts)
  end.

Section EnhancedPipeline.
Context {Input Output : Type}.

(** [self.process_text]: [process_batch] calls it on every text, but
    the class does not define it; it is a parameter of the model. *)
Variable process_text : Input → outcome Output.

(** The event loop decides which of several failing awaitables fails
    first: given their exceptions in argument order, the position of
    the earliest one. *)
Variable first_to_raise : list exn → nat.

(** [await asyncio.gather] on the awaitables [aws], without
    [return_exceptions]: the list of results in argument order when
    every awaitable returns; otherwise the first exception raised is
    propagated as it is and the other outcomes are dropped. *)
Definition gather (aws : list (outcome Output)) : outcome (list Output) :=
  match raised_of aws with
  | [] => Returned (returned_of aws)
  | e :: es => Raised (nth (first_to_raise (e :: es)) (e :: es) e)
  end.

(** [for text in batch: batch_results.append(await process_text(text))] *)
Fixpoint sequential (batch : list Input) (batch_results : list Output)
  : outcome (list Output) :=
  match batch with
  | [] => Returned batch_results
  | text :: batch' =>
      match process_text text with
      | Raised e => Raised e
      | Returned result => sequential batch' (batch_results ++ [result])
      end
  end.

(** [f"{self.checkpoint_dir}/checkpoint_{batch_idx}.pkl"]; an absent
    directory is formatted as [None]. *)
Definition checkpoint_path (checkpoint_dir : option string)
    (batch_idx : Z) : string :=
  default "None" checkpoint_dir
    +:+ "/checkpoint_" +:+ pretty batch_idx +:+ ".pkl".

(** The files of the checkpoint directory, by path, each holding the
    list that was pickled into it.  The module uses [pickle] and [os]
    without importing them; they are read as the standard modules, and
    [pickle.load] gives back what [pickle.dump] was given.  The
    directory is taken to exist and to be writable. *)
Definition _save_checkpoint (checkpoint_dir : option string)
    (batch_idx : Z) (results : list Output)
    (fs : gmap string (list Output)) : gmap string (list Output) :=
  <[checkpoint_path checkpoint_dir batch_idx := results]> fs.

Definition _load_checkpoint (checkpoint_dir : option string)
    (batch_idx : Z) (fs : gmap string (list Output))
  : option (list Output) :=
  fs !! checkpoint_path checkpoint_dir batch_idx.

(** Truth value of [self.checkpoint_dir]: [None] and the empty string
    are false. *)
Definition checkpointing (checkpoint_dir : option string) : bool :=
  match checkpoint_dir with
  | Some (String _ _) => true
  | _ => false
  end.

(** [for batch_idx, batch in enumerate(batches): ...] from index
    [batch_idx] on, with the accumulated [results]. *)
Fixpoint batch_loop (parallel : bool) (checkpoint_dir : option string)
    (batch_idx : nat) (batches : list (list Input))
    (results : list Output) (fs : gmap string (list Output))
  : outcome (list Output) * gmap string (list Output) :=
  match batches with
  | [] => (Returned results, fs)
  | batch :: batches' =>
      match (if parallel then gather (map process_text batch)
             else sequential batch []) with
      | Raised e => (Raised e, fs)
      | Returned batch_results =>
          let results := results ++ batch_results in
          let fs :=
            if checkpointing checkpoint_dir
            then _save_checkpoint checkpoint_dir (Z.of_nat batch_idx)
                   results fs
            else fs in
          batch_loop parallel checkpoint_dir (S batch_idx) batches'
            results fs
      end
  end.

(** [EnhancedPipeline.process_batch], on a pipeline whose
    [checkpoint_dir] attribute is [checkpoint_dir]. *)
Definition process_batch (checkpoint_dir : option string)
    (texts : list Input) (batch_size : Z) (parallel : bool)
    (fs : gmap string (list Output))
  : outcome (list Output) * gmap string (list Output) :=
  match make_batches texts batch_size with
  | Raised e => (Raised e, fs)
  | Returned batches =>
      batch_loop parallel checkpoint_dir 0 batches [] fs
  end.

(** [process_text] raises on [text]. *)
Definition fails (text : Input) : Prop :=
  ∃ e, process_text text = Raised e.

(** Every text is processed successfully. *)
Definition all_succeed (texts : list Input) (outputs : list Output) : Prop :=
  Forall2 (λ text result, process_text text = Returned result)
    texts outputs.

End EnhancedPipeline.

(** ** Concrete stages, managers and runs of the examples *)

Definition demo_stage (n : string) : PipelineStage nat unit nat :=
  {| name := n;
     processor := λ x, Returned (S x);
     validator := λ _, Returned true;
     recovery := None;
     config := None |}.

(** [A] depends on [B] and [B] depends on [A]. *)
Definition cyclic_manager : StageManager nat unit nat :=
  register_all
    [(demo_stage "A", Some ["B"]); (demo_stage "B", Some ["A"])]
    new_manager.

(** [A], [C] (after [A] and [B]) and [B] (after [A]), registered in the
    order [A], [C], [B]. *)
Definition acb_manager : StageManager nat unit nat :=
  register_all
    [(demo_stage "A", None); (demo_stage "C", Some ["A"; "B"]);
     (demo_stage "B", Some ["A"])]
    new_manager.



(** [A] alone. *)
Definition single_manager : StageManager nat unit nat :=
  register_all [(demo_stage "A", None)] new_manager.

(** Another stage under the name [A]. *)
Definition replacement_stage : PipelineStage nat unit nat :=
  {| name := "A";
     processor := λ x, Returned (x + 2);
     validator := λ _, Returned true;
     recovery := None;
     config := Some 2 |}.

(** A stage whose validator rejects every result. *)
Definition rejecting_stage : PipelineStage nat unit nat :=
  {| name := "S";
     processor := λ x, Returned (S x);
     validator := λ _, Returned false;
     recovery := None;
     config := None |}.

(** The same stage with a recovery function; what it returns is rejected
    by the validator as well. *)
Definition recovering_stage : PipelineStage nat unit nat :=
  {| name := "S";
     processor := λ x, Returned (S x);
     validator := λ _, Returned false;
     recovery := Some (λ result _, Returned (result + 100));
     config := None |}.

(** A stage whose processor raises. *)
Definition crashing_stage : PipelineStage nat unit nat :=
  {| name := "S";
     processor := λ _, Raised (ValueError "boom");
     validator := λ _, Returned true;
     recovery := None;
     config := None |}.

Definition times_ten (text : nat) : outcome nat := Returned (10 * text).

Definition fails_on_one (text : nat) : outcome nat :=
  if decide (text = 1) then Raised (ValueError "bad text")
  else Returned (10 * text).

Definition first_in_order (raised : list exn) : nat := 0.

(** ** The interpreter's recursion limit *)

(** [RecursionError], which the interpreter raises at a call that would
    make the stack deeper than [sys.getrecursionlimit()]. *)
Definition RecursionError : exn :=
  {| exn_class := "RecursionError";
     exn_str := "maximum recursion depth exceeded";
     exn_context := None |}.

Section RecursionLimit.
Context {Data Ctx Config : Type}.
Implicit Types (m : StageManager Data Ctx Config).

(** [StageManager.get_execution_order] when the interpreter's stack has
    room for [depth] nested calls of [visit] at the time of the call,
    that is [sys.getrecursionlimit()] less the frames in use, the one of
    [get_execution_order] included.  Every call of [visit] takes a frame,
    also a call that returns at once on a visited stage; the call that
    finds no room raises [RecursionError], and nothing in
    [get_execution_order] catches it. *)
Definition get_execution_order_within (depth : nat) m
  : outcome (list string) :=
  match get_execution_order_fuel depth m with
  | Some r => r
  | None => Raised RecursionError
  end.

(** A chain of distinct stages, each of which has the next one as the
    first of its declared prerequisites; the next one is registered. *)
Definition first_dependency_chain m (path : list string) : Prop :=
  NoDup path
  ∧ ∀ i a b, path !! i = Some a → path !! S i = Some b →
             b ∈ stage_names m ∧ head (deps_of m a) = Some b.




End RecursionLimit.

(** A chain of [n] stages: [s0] needs [s1], which needs [s2], and so on;
    the last one needs nothing. *)
Definition chain_name (i : nat) : string := "s" +:+ pretty i.

Definition chain_regs (n : nat)
  : list (PipelineStage nat unit nat * option (list string)) :=
  map (λ i, (demo_stage (chain_name i),
             if decide (S i < n) then Some [chain_name (S i)] else None))
    (seq 0 n).

Definition chain_manager (n : nat) : StageManager nat unit nat :=
  register_all (chain_regs n) new_manager.


(** ** Vocabulary of the further properties of [stages.py] *)

(** The stages whose processor was called, in the order of the calls. *)
Definition processor_calls (calls : list call) : list string :=
  omap (λ c, match c with CallProcessor s => Some s | _ => None end) calls.

Section StageVocabulary.
Context {Data Ctx Config : Type}.
Implicit Types (m : StageManager Data Ctx Config)
  (stage : PipelineStage Data Ctx Config)
  (regs : list (PipelineStage Data Ctx Config * option (list string))).

(** Every stage of the registry is stored under its own name. *)
Definition well_filed m : Prop :=
  ∀ k stage, dict_get k (stages m) = Some stage → name stage = k.

(** [raise ValueError(f"Stage {self.stage.name} validation failed")] *)
Definition validation_failed stage : exn :=
  ValueError ("Stage " +:+ name stage +:+ " validation failed").

(** What every registration keeps true of a manager: the names are
    distinct, every stage is stored under its own name, and a dependency
    list is stored only for a registered name and is never empty. *)
Definition registry_invariant m : Prop :=
  NoDup (stage_names m)
  ∧ well_filed m
  ∧ ∀ k ds, dependencies m !! k = Some ds → k ∈ stage_names m ∧ ds ≠ [].

(** The registrations of the name [k], in their sequence. *)
Definition registrations_of (k : string) regs :=
  filter (λ r, name r.1 = k) regs.

(** The registrations of [k] that pass a non-empty dependency list. *)
Definition dependency_registrations_of (k : string) regs :=
  filter (λ r, name r.1 = k ∧ is_Some (nonempty_deps r.2)) regs.

End StageVocabulary.

(** ** [utils/error_handler.py] *)

(** [class ErrorResponse]; the timestamp and the formatted traceback come
    from the environment. *)
Record ErrorResponse {Time V : Type} : Type := {
  error_type : string;
  message : string;
  timestamp : Time;
  trace : string;
  response_context : gmap string V;
  recovery_action : option string
}.
Arguments ErrorResponse : clear implicits.

(** [ErrorHandler._increment_error_count]: the counters are the
    insertion-ordered dict [self.error_counts]; after the first line the
    key is present, so the update cannot miss it. *)
Definition _increment_error_count (error_type : string)
    (error_counts : list (string * nat)) : list (string * nat) :=
  let error_counts :=
    match dict_get error_type error_counts with
    | None => dict_set error_type 0 error_counts
    | Some _ => error_counts
    end in
  dict_set error_type (default 0 (dict_get error_type error_counts) + 1)
    error_counts.

(** [ErrorHandler._get_recovery_action] *)
Definition _get_recovery_action (error_type : string) : option string :=
  dict_get error_type
    [("ValueError", "Validate input parameters");
     ("KeyError", "Check required dictionary keys");
     ("IndexError", "Verify array indices");
     ("TypeError", "Check type compatibility");
     ("AttributeError", "Verify object attributes")].

Section ErrorHandler.
Context {Time V : Type}.

(** The body the three handlers share: the new counters, the response
    and the line sent to the logger, which starts with [label]. *)
Definition handle_error (label : string) (error : exn)
    (context : option (gmap string V)) (now : Time) (format_exc : string)
    (error_counts : list (string * nat))
  : list (string * nat) * ErrorResponse Time V * string :=
  let error_type := exn_class error in
  let error_counts := _increment_error_count error_type error_counts in
  let response :=
    {| error_type := error_type;
       message := exn_str error;
       timestamp := now;
       trace := format_exc;
       response_context := default ∅ context;
       recovery_action := _get_recovery_action error_type |} in
  (error_counts, response,
   label +:+ error_type +:+ " - " +:+ exn_str error).

(** [ErrorHandler.handle_processing_error] *)
Definition handle_processing_error := handle_error "Processing error: ".

(** [ErrorHandler.handle_network_error] *)
Definition handle_network_error := handle_error "Network error: ".

(** [ErrorHandler.handle_validation_error] *)
Definition handle_validation_error := handle_error "Validation error: ".

End ErrorHandler.

(** [max(items, key=lambda x: x[1])] on a non-empty list: the first item
    with the largest count. *)
Fixpoint max_by_count (best : string * nat) (items : list (string * nat))
  : string * nat :=
  match items with
  | [] => best
  | item :: items' =>
      max_by_count (if decide (best.2 < item.2) then item else best) items'
  end.

Record ErrorStatistics : Type := {
  total_errors : nat;
  error_types : list (string * nat);
  most_common : option (string * nat)
}.

(** [ErrorHandler.get_error_statistics] *)
Definition get_error_statistics (error_counts : list (string * nat))
  : ErrorStatistics :=
  {| total_errors := sum_list (error_counts.*2);
     error_types := error_counts;
     most_common :=
       match error_counts with
       | [] => None
       | item :: items => Some (max_by_count item items)
       end |}.

Inductive handler_method : Type := Processing | Network | Validation.

Section ErrorHandlerCalls.
Context {Time V : Type}.

(** One call of a handler method, with what the environment supplies to
    it: the current time and the formatted traceback. *)
Record handler_call : Type := {
  call_method : handler_method;
  call_error : exn;
  call_context : option (gmap string V);
  call_now : Time;
  call_format_exc : string
}.

Definition handle_call (c : handler_call)
    (error_counts : list (string * nat))
  : list (string * nat) * ErrorResponse Time V * string :=
  match call_method c with
  | Processing => handle_processing_error
  | Network => handle_network_error
  | Validation => handle_validation_error
  end (call_error c) (call_context c) (call_now c) (call_format_exc c)
    error_counts.

(** The counters of a handler after a sequence of calls. *)
Definition counts_after (calls : list handler_call)
    (error_counts : list (string * nat)) : list (string * nat) :=
  foldl (λ counts c, (handle_call c counts).1.1) error_counts calls.

End ErrorHandlerCalls.
Arguments handler_call : clear implicits.


(** ** [utils/optimizer.py] *)

(** [del d[k]] for a key that is present. *)
Fixpoint dict_del {V} (k : string) (d : list (string * V))
  : list (string * V) :=
  match d with
  | [] => []
  | (k', v') :: d' =>
      if decide (k = k') then d' else (k', v') :: dict_del k d'
  end.

(** An entry of [Optimizer.cache]. *)
Record cache_entry {V Time : Type} : Type := {
  entry_value : V;
  entry_timestamp : Time;
  entry_ttl : option Z
}.
Arguments cache_entry : clear implicits.

(** [raise TypeError(msg)] outside of any handler. *)
Definition TypeError (msg : string) : exn :=
  {| exn_class := "TypeError"; exn_str := msg; exn_context := None |}.

(** [Optimizer._process_batch]: the body is [pass], the call returns
    [None]. *)
Definition _process_batch {A} (batch : list A) : option (list A) := None.

(** [results.extend(self._process_batch(batch))] for each start index of
    [range(0, len(data), batch_size)]; extending a list by [None]
    raises. *)
Fixpoint optimize_loop {A} (data : list A) (batch_size : Z)
    (starts : list nat) (results : list A) : outcome (list A) :=
  match starts with
  | [] => Returned results
  | i :: starts' =>
      let batch := slice data i (i + Z.to_nat batch_size) in
      match _process_batch batch with
      | None => Raised (TypeError "'NoneType' object is not iterable")
      | Some processed =>
          optimize_loop data batch_size starts' (results ++ processed)
      end
  end.

(** [Optimizer.optimize_batch_processing] *)
Definition optimize_batch_processing {A} (data : list A) (batch_size : Z)
  : outcome (list A) :=
  match range (length data) batch_size with
  | Raised e => Raised e
  | Returned starts => optimize_loop data batch_size starts []
  end.

Section OptimizerCache.
Context {V Time : Type}.

(** [a < b] on the floats [time.time()] returns. *)
Variable earlier : Time → Time → bool.

(** [now - timestamp > ttl], computed on floats. *)
Variable expired : Time → Time → Z → bool.

(** [min(self.cache.keys(), key=lambda k: self.cache[k]['timestamp'])]
    on a non-empty cache: the first key with the least timestamp. *)
Fixpoint oldest (best : string * cache_entry V Time)
    (items : list (string * cache_entry V Time))
  : string * cache_entry V Time :=
  match items with
  | [] => best
  | item :: items' =>
      oldest (if earlier (entry_timestamp item.2) (entry_timestamp best.2)
              then item else best) items'
  end.

(** [Optimizer.cache_result] at time [now], on a cache of capacity
    [cache_size]. *)
Definition cache_result (cache_size : Z) (key : string) (value : V)
    (ttl : option Z) (now : Time)
    (cache : list (string * cache_entry V Time))
  : outcome (list (string * cache_entry V Time)) :=
  let entry :=
    {| entry_value := value; entry_timestamp := now; entry_ttl := ttl |} in
  if decide (cache_size ≤ Z.of_nat (length cache))%Z then
    match cache with
    | [] => Raised (ValueError "min() arg is an empty sequence")
    | item :: items =>
        let oldest_key := (oldest item items).1 in
        Returned (dict_set key entry (dict_del oldest_key cache))
    end
  else Returned (dict_set key entry cache).

(** [Optimizer.get_cached_result] at time [now]: the value returned and
    the cache after the call. *)
Definition get_cached_result (key : string) (now : Time)
    (cache : list (string * cache_entry V Time))
  : option V * list (string * cache_entry V Time) :=
  match dict_get key cache with
  | None => (None, cache)
  | Some entry =>
      match entry_ttl entry with
      | Some ttl =>
          if expired now (entry_timestamp entry) ttl
          then (None, dict_del key cache)
          else (Some (entry_value entry), cache)
      | None => (Some (entry_value entry), cache)
      end
  end.

End OptimizerCache.


(** ** Concrete data of the further examples *)


(** A clock that counts seconds: [a < b] and [now - timestamp > ttl]. *)
Definition clock_earlier (a b : nat) : bool := bool_decide (a < b).

Definition clock_expired (now timestamp : nat) (ttl : Z) : bool :=
  bool_decide (ttl < Z.of_nat now - Z.of_nat timestamp)%Z.

(** A cache of two entries, [b] older than [a]. *)
Definition demo_cache : list (string * cache_entry nat nat) :=
  [("a", {| entry_value := 1; entry_timestamp := 5; entry_ttl := None |});
   ("b", {| entry_value := 2; entry_timestamp := 3; entry_ttl := None |})].


(** * Properties *)

(** ** Insertion-ordered dictionaries *)

Section DictProps.
Context {V : Type}.
Implicit Types (d : list (string * V)).

Lemma dict_set_names_present k v d : k ∈ d.*1 → (dict_set k v d).*1 = d.*1.
Proof.
  induction d as [|[k' v'] d IH]; simpl; [by intros ?%elem_of_nil|].
  intros Hk. case_decide; [done|]. simpl. f_equal. apply IH. set_solver.
Qed.

Lemma dict_set_names_fresh k v d : k ∉ d.*1 → (dict_set k v d).*1 = d.*1 ++ [k].
Proof.
  induction d as [|[k' v'] d IH]; simpl; [done|].
  intros Hk. case_decide; [set_solver|]. simpl. f_equal. apply IH. set_solver.
Qed.

Lemma dict_get_set_eq k v d : dict_get k (dict_set k v d) = Some v.
Proof.
  induction d as [|[k' v'] d IH]; simpl.
  - by rewrite decide_True.
  - case_decide as Hk; simpl.
    + by rewrite decide_True.
    + by rewrite decide_False.
Qed.

Lemma dict_get_set_ne k k' v d :
  k' ≠ k → dict_get k' (dict_set k v d) = dict_get k' d.
Proof.
  intros Hne. induction d as [|[k0 v0] d IH]; simpl.
  - by rewrite decide_False.
  - case_decide as Hk; simpl.
    + subst k0. by rewrite !decide_False.
    + case_decide; [done|apply IH].
Qed.

Lemma dict_set_NoDup k v d : NoDup d.*1 → NoDup (dict_set k v d).*1.
Proof.
  intros ND. destruct (decide (k ∈ d.*1)).
  - by rewrite dict_set_names_present.
  - rewrite dict_set_names_fresh by done.
    apply NoDup_app. split; [done|]. split; [set_solver|apply NoDup_singleton].
Qed.

End DictProps.

(** ** The traversal of [get_execution_order] *)

Section OrderProps.
Context {Data Ctx Config : Type}.
Implicit Types (m : StageManager Data Ctx Config) (order : list string)
  (stage : PipelineStage Data Ctx Config) (data result : Data)
  (context : option Ctx).

Lemma visit_post_refl m st : visit_post m [] st st.
Proof.
  exists []. rewrite app_nil_r.
  repeat split; try done; try constructor; set_solver.
Qed.

Lemma visit_post_seq m d l st st1 st2 :
  visit_post m [d] st st1 → visit_post m l st1 st2 →
  visit_post m (d :: l) st st2.
Proof.
  intros (new1 & HO1 & ND1 & Hn1 & HV1 & Ht1 & Hr1 & Hs1)
         (new2 & HO2 & ND2 & Hn2 & HV2 & Ht2 & Hr2 & Hs2).
  exists (new1 ++ new2). split; [|split; [|split; [|split; [|split; [|split]]]]].
  - rewrite HO2, HO1. by rewrite <-(assoc_L (++)).
  - apply NoDup_app. split; [done|]. split; [|done].
    intros x Hx1 Hx2. apply Hn1 in Hx1. apply Hn2 in Hx2. tauto.
  - intros x. rewrite elem_of_app, Hn1, Hn2. split.
    + intros [[? ?]|[? ?]]; set_solver.
    + intros [? ?]. destruct (decide (x ∈ st1.1)); [left|right]; done.
  - set_solver.
  - intros d' [->|Hd']%elem_of_cons.
    + destruct (Ht1 d) as [? ?]; [set_solver|]. split; [set_solver|done].
    + by apply Ht2.
  - intros x [Hx|Hx]%elem_of_app; [by apply Hr1|by apply Hr2].
  - intros Hpre Hsorted. apply Hs2.
    + intros y d' Hy HyO Hd'.
      assert (y ∉ new1) as Hyn.
      { intros Hyn. apply HyO. rewrite HO1. set_solver. }
      assert (y ∈ st.1) as HyV.
      { destruct (decide (y ∈ st.1)); [done|]. exfalso. apply Hyn, Hn1. done. }
      apply Hpre; [done| |set_solver].
      intros HyO'. apply HyO. rewrite HO1. set_solver.
    + apply Hs1; [|done]. intros y d' Hy HyO ->%list_elem_of_singleton.
      apply Hpre; [done|done|set_solver].
Qed.

Lemma for_each_dep_spec m n f :
  visitor_ok m n f →
  ∀ l st,
    (∀ d, d ∈ l → d ∉ stage_names m →
          ∃ s, s ∈ stage_names m ∧ depends_on m s d) →
    size (registered m ∖ st.1) < n →
    dfs_spec m l st (for_each_dep m f l st).
Proof.
  intros Hf l. induction l as [|d l IH]; intros st Hunk Hsize; simpl.
  - apply visit_post_refl.
  - destruct (decide (d ∈ stage_names m)) as [Hd|Hd].
    + specialize (Hf d st Hd Hsize).
      destruct (f d st) as [[st1|e]|]; simpl in *; [|done..].
      assert (size (registered m ∖ st1.1) < n) as Hsize1.
      { destruct Hf as (? & ? & ? & ? & HV & ?).
        eapply Nat.le_lt_trans; [|exact Hsize].
        apply subseteq_size. set_solver. }
      specialize (IH st1 (λ d' Hd', Hunk d' (list_elem_of_further _ _ _ Hd')) Hsize1).
      destruct (for_each_dep m f l st1) as [[st2|e]|]; simpl in *; [|done..].
      by eapply visit_post_seq.
    + simpl. destruct (Hunk d) as (s & Hs & Hsd); [set_solver|done|].
      by exists s, d.
Qed.

Lemma visit_spec m n : visitor_ok m n (visit n m).
Proof.
  induction n as [|n IH]; intros s [V O] Hs Hsize; simpl in *; [lia|].
  destruct (decide (s ∈ V)) as [HsV|HsV]; simpl.
  - exists []. rewrite app_nil_r. simpl.
    repeat split; try done; try constructor; set_solver.
  - assert (size (registered m ∖ ({[s]} ∪ V)) < n) as Hsize'.
    { assert (size (registered m ∖ ({[s]} ∪ V)) < size (registered m ∖ V));
        [|lia].
      apply subset_size. split; [set_solver|].
      intros Hsub. specialize (Hsub s).
      assert (s ∈ registered m) by (unfold registered; set_solver).
      set_solver. }
    pose proof (for_each_dep_spec m n _ IH (deps_of m s) ({[s]} ∪ V, O)) as Hloop.
    destruct (for_each_dep m (visit n m) (deps_of m s) ({[s]} ∪ V, O))
      as [[[Vk Ok]|e]|]; simpl in *.
    + destruct Hloop as (new & HO & ND & Hn & HV & Ht & Hr & Hsort);
        [by eauto|done|]. simpl in *.
      exists (new ++ [s]). simpl.
      split; [|split; [|split; [|split; [|split; [|split]]]]].
      * rewrite HO. by rewrite <-(assoc_L (++)).
      * apply NoDup_app. split; [done|]. split; [|apply NoDup_singleton].
        intros x Hx ->%list_elem_of_singleton. apply Hn in Hx. set_solver.
      * intros x. rewrite elem_of_app, Hn, list_elem_of_singleton. split.
        -- intros [[? ?]| ->]; set_solver.
        -- intros [? ?]. destruct (decide (x = s)); [by right|left]. set_solver.
      * set_solver.
      * intros d ->%list_elem_of_singleton. split; [set_solver|done].
      * intros x [Hx| ->%list_elem_of_singleton]%elem_of_app; [by apply Hr|].
        split; [done|]. intros d Hd. by apply Ht.
      * intros Hpre Hsorted.
        assert (sorted_upto_cycles m Ok) as HsOk.
        { apply Hsort; [|done]. intros y d Hy HyO Hd.
          apply elem_of_union in Hy as [->%elem_of_singleton|Hy].
          - by apply tc_once.
          - eapply tc_r; [|exact Hd]. apply Hpre; [done|done|set_solver]. }
        intros j x d Hj Hxd.
        apply lookup_app_Some in Hj as [Hj|[Hlen Hj]].
        -- destruct (HsOk j x d Hj Hxd) as [(i & Hij & Hi)|Htc]; [left|by right].
           exists i. split; [done|]. by apply lookup_app_l_Some.
        -- apply list_lookup_singleton_Some in Hj as [Hj ->].
           destruct (Ht d Hxd) as [HdVk _].
           destruct (decide (d ∈ Ok)) as [HdO|HdO].
           ++ left. apply list_elem_of_lookup in HdO as [i Hi].
              exists i. split; [|by apply lookup_app_l_Some].
              apply lookup_lt_Some in Hi. lia.
           ++ right. assert (d ∉ new) as Hdn by (rewrite HO in HdO; set_solver).
              destruct (decide (d = x)) as [->|Hne]; [by apply tc_once|].
              assert (d ∈ V) as HdV.
              { destruct (decide (d ∈ V)); [done|]. exfalso. apply Hdn, Hn.
                set_solver. }
              apply Hpre; [done| |set_solver].
              rewrite HO in HdO. set_solver.
    + apply Hloop; [by eauto|done].
    + apply Hloop; [by eauto|done].
Qed.

Lemma size_list_to_set_le (l : list string) :
  size (list_to_set l : gset string) ≤ length l.
Proof.
  induction l as [|x l IH].
  - rewrite list_to_set_nil, size_empty. done.
  - rewrite list_to_set_cons, size_union_alt, size_singleton. simpl.
    assert (size (list_to_set l ∖ {[x]} : gset string)
            ≤ size (list_to_set l : gset string)); [|lia].
    apply subseteq_size. set_solver.
Qed.

Lemma for_each_stage_dep m f l st :
  (∀ x, x ∈ l → x ∈ stage_names m) →
  for_each_stage f l st = for_each_dep m f l st.
Proof.
  revert st. induction l as [|x l IH]; intros st Hl; simpl; [done|].
  rewrite decide_True by set_solver.
  destruct (f x st) as [[st'|e]|]; [|done..].
  apply IH. set_solver.
Qed.

Lemma unvisited_bound m (visited : gset string) :
  size (registered m ∖ visited) ≤ length (stages m).
Proof.
  etrans; [apply subseteq_size|].
  - apply (subseteq_difference_l _ _ _ (reflexivity _)).
  - unfold registered, stage_names. rewrite <-(length_fmap fst).
    apply size_list_to_set_le.
Qed.

Lemma get_execution_order_fuel_spec m fuel :
  length (stages m) < fuel →
  order_spec m (get_execution_order_fuel fuel m).
Proof.
  intros Hfuel. unfold get_execution_order_fuel.
  rewrite (for_each_stage_dep m) by done.
  assert (dfs_spec m (stage_names m) (∅, [])
            (for_each_dep m (visit fuel m) (stage_names m) (∅, []))) as H.
  { apply (for_each_dep_spec m fuel); [apply visit_spec|done|].
    eapply Nat.le_lt_trans; [apply unvisited_bound|done]. }
  destruct (for_each_dep m (visit fuel m) (stage_names m) (∅, []))
    as [[[V O]|e]|]; simpl in *; [|done..].
  destruct H as (new & HO & ND & Hn & _ & Ht & Hr & Hsort); simpl in *.
  subst O. split; [done|]. split; [|split].
  - intros x. rewrite Hn. split.
    + intros [Hx _]. apply Hr, Hn. set_solver.
    + intros Hx. split; [by apply Ht|set_solver].
  - intros s d Hs Hsd. apply (Hr s); [|done]. apply Hn.
    split; [by apply Ht|set_solver].
  - apply Hsort; [set_solver|]. intros j x d Hj. done.
Qed.

Lemma get_execution_order_spec m : order_spec m (get_execution_order m).
Proof. apply get_execution_order_fuel_spec. lia. Qed.

Lemma get_execution_order_terminates m : get_execution_order m ≠ None.
Proof.
  pose proof (get_execution_order_spec m) as H.
  by destruct (get_execution_order m).
Qed.

Lemma get_execution_order_registered m :
  all_deps_registered m →
  ∃ order, get_execution_order m = Some (Returned order)
           ∧ NoDup order
           ∧ (∀ s, s ∈ order ↔ s ∈ stage_names m)
           ∧ sorted_upto_cycles m order.
Proof.
  intros Hreg. pose proof (get_execution_order_spec m) as H.
  destruct (get_execution_order m) as [[order|e]|]; simpl in H; [|exfalso..].
  - exists order. naive_solver.
  - destruct H as (s & d & Hs & Hsd & Hd & _). eauto.
  - done.
Qed.


Lemma precedes_trans order a b c :
  NoDup order → precedes order a b → precedes order b c → precedes order a c.
Proof.
  intros ND (i & j & Hi & Hj & Hij) (j' & k & Hj' & Hk & Hjk).
  assert (j = j') as <- by (by eapply NoDup_lookup).
  exists i, k. split; [done|]. split; [done|lia].
Qed.

Lemma precedes_irrefl order a : NoDup order → ¬ precedes order a a.
Proof.
  intros ND (i & j & Hi & Hj & Hij).
  assert (i = j) by (by eapply NoDup_lookup). lia.
Qed.

Lemma sorted_acyclic_precedes m order s d :
  sorted_upto_cycles m order → s ∈ order → ¬ on_cycle m s →
  depends_on m s d → precedes order d s.
Proof.
  intros Hsort [j Hj]%list_elem_of_lookup Hcyc Hsd.
  destruct (Hsort j s d Hj Hsd) as [(i & Hij & Hi)|Htc].
  - by exists i, j.
  - destruct Hcyc. by eapply tc_l.
Qed.

Lemma precedes_closure m order :
  NoDup order → all_deps_registered m →
  (∀ s d, s ∈ stage_names m → depends_on m s d → precedes order d s) →
  ∀ s d, tc (depends_on m) s d → s ∈ stage_names m →
         precedes order d s ∧ d ∈ stage_names m.
Proof.
  intros ND Hreg Hedge s d Htc. induction Htc as [s d Hsd|s d d' Hsd Htc IH].
  - intros Hs. split; [by apply Hedge|by eapply Hreg].
  - intros Hs. assert (d ∈ stage_names m) as Hd by (by eapply Hreg).
    destruct (IH Hd) as [Hp Hd']. split; [|done].
    eapply precedes_trans; [done|exact Hp|]. by apply Hedge.
Qed.

Lemma cycle_not_sorted m order s :
  NoDup order → all_deps_registered m →
  s ∈ stage_names m → on_cycle m s →
  ¬ (∀ s d, s ∈ stage_names m → depends_on m s d → precedes order d s).
Proof.
  intros ND Hreg Hs Hcyc Hedge.
  destruct (precedes_closure m order ND Hreg Hedge s s Hcyc Hs) as [Hp _].
  by eapply precedes_irrefl.
Qed.

Lemma register_all_snoc regs stage deps m :
  register_all (regs ++ [(stage, deps)]) m
  = (register_stage stage deps (register_all regs m)).2.
Proof. unfold register_all. by rewrite foldl_app. Qed.

Lemma register_all_NoDup regs :
  NoDup (stage_names
           (register_all regs (new_manager : StageManager Data Ctx Config))).
Proof.
  induction regs as [|[stage deps] regs IH] using rev_ind.
  - constructor.
  - rewrite register_all_snoc. by apply dict_set_NoDup.
Qed.

Lemma visit_unfold n m s (visited : gset string) order :
  visit (S n) m s (visited, order)
  = if decide (s ∈ visited) then Some (Returned (visited, order))
    else match for_each_dep m (visit n m) (deps_of m s)
                 ({[s]} ∪ visited, order) with
         | Some (Returned (visited, order)) =>
             Some (Returned (visited, order ++ [s]))
         | r => r
         end.
Proof. reflexivity. Qed.

Lemma for_each_dep_visited m n l (visited : gset string) order :
  (∀ d, d ∈ l → d ∈ visited ∧ d ∈ stage_names m) →
  for_each_dep m (visit (S n) m) l (visited, order)
  = Some (Returned (visited, order)).
Proof.
  induction l as [|d l IH]; intros Hl; [done|].
  destruct (Hl d) as [Hv Hn]; [set_solver|].
  cbn [for_each_dep]. rewrite visit_unfold, !decide_True by done.
  apply IH. set_solver.
Qed.




(** More fuel never changes a result. *)
Lemma for_each_dep_mono m (f g : visitor) :
  (∀ s st r, f s st = Some r → g s st = Some r) →
  ∀ l st r, for_each_dep m f l st = Some r → for_each_dep m g l st = Some r.
Proof.
  intros Hfg l. induction l as [|d l IH]; intros st r; simpl; [done|].
  case_decide; [|done].
  destruct (f d st) as [[st'|e]|] eqn:Hf; [| |done].
  - rewrite (Hfg _ _ _ Hf). apply IH.
  - by rewrite (Hfg _ _ _ Hf).
Qed.

Lemma visit_mono m n s st r :
  visit n m s st = Some r → visit (S n) m s st = Some r.
Proof.
  revert s st r. induction n as [|n IH]; intros s [V O] r; [done|].
  intros H. simpl in H. change (visit (S (S n)) m s (V, O)) with
    (if decide (s ∈ V) then Some (Returned (V, O))
     else match for_each_dep m (visit (S n) m) (deps_of m s) ({[s]} ∪ V, O) with
          | Some (Returned (visited, order)) =>
              Some (Returned (visited, order ++ [s]))
          | r => r
          end).
  case_decide; [done|].
  destruct (for_each_dep m (visit n m) (deps_of m s) ({[s]} ∪ V, O))
    as [r'|] eqn:Hloop; [|done].
  by rewrite (for_each_dep_mono m _ _ IH _ _ _ Hloop).
Qed.

Lemma for_each_stage_mono (f g : visitor) :
  (∀ s st r, f s st = Some r → g s st = Some r) →
  ∀ l st r, for_each_stage f l st = Some r → for_each_stage g l st = Some r.
Proof.
  intros Hfg l. induction l as [|d l IH]; intros st r; simpl; [done|].
  destruct (f d st) as [[st'|e]|] eqn:Hf; [| |done].
  - rewrite (Hfg _ _ _ Hf). apply IH.
  - by rewrite (Hfg _ _ _ Hf).
Qed.

Lemma get_execution_order_fuel_enough m fuel :
  length (stages m) < fuel →
  get_execution_order_fuel fuel m = get_execution_order m.
Proof.
  intros Hfuel. unfold get_execution_order.
  assert (∃ k, fuel = k + S (length (stages m))) as [k ->]
    by (exists (fuel - S (length (stages m))); lia).
  clear Hfuel. induction k as [|k IH]; [done|].
  rewrite <-IH. unfold get_execution_order_fuel.
  pose proof (get_execution_order_fuel_spec m (k + S (length (stages m)))
                ltac:(lia)) as Hspec.
  unfold get_execution_order_fuel in Hspec.
  destruct (for_each_stage (visit (k + S (length (stages m))) m)
              (stage_names m) (∅, [])) as [r|] eqn:Hr; [|done].
  change (S k + S (length (stages m))) with (S (k + S (length (stages m)))).
  by rewrite (for_each_stage_mono _ _ (visit_mono m _) _ _ _ Hr).
Qed.

End OrderProps.

(** The order is computed from the names and the dependency lists alone. *)

Section Determinism.
Context {Data Ctx Config Data' Ctx' Config' : Type}.
Implicit Types (m : StageManager Data Ctx Config)
  (om : StageManager Data' Ctx' Config').

Lemma for_each_dep_ext m om (f g : visitor) :
  stage_names m = stage_names om → (∀ s st, f s st = g s st) →
  ∀ l st, for_each_dep m f l st = for_each_dep om g l st.
Proof.
  intros Hn Hfg l. induction l as [|d l IH]; intros st; simpl; [done|].
  rewrite <-Hn, Hfg. case_decide; [|done].
  destruct (g d st) as [[st'|e]|]; [apply IH|done..].
Qed.

Lemma visit_ext m om n :
  stage_names m = stage_names om → dependencies m = dependencies om →
  ∀ s st, visit n m s st = visit n om s st.
Proof.
  intros Hn Hd. induction n as [|n IH]; intros s [V O]; simpl; [done|].
  case_decide; [done|].
  unfold deps_of. rewrite <-Hd.
  by rewrite (for_each_dep_ext m om _ _ Hn IH).
Qed.

Lemma for_each_stage_ext (f g : visitor) :
  (∀ s st, f s st = g s st) →
  ∀ l st, for_each_stage f l st = for_each_stage g l st.
Proof.
  intros Hfg l. induction l as [|d l IH]; intros st; simpl; [done|].
  rewrite Hfg. destruct (g d st) as [[st'|e]|]; [apply IH|done..].
Qed.

Lemma get_execution_order_ext m om :
  stage_names m = stage_names om → dependencies m = dependencies om →
  get_execution_order m = get_execution_order om.
Proof.
  intros Hn Hd. unfold get_execution_order, get_execution_order_fuel.
  assert (length (stages m) = length (stages om)) as <-.
  { unfold stage_names in Hn.
    by rewrite <-(length_fmap fst (stages m)), Hn, length_fmap. }
  rewrite <-Hn.
  by rewrite (for_each_stage_ext _ _ (visit_ext m om _ Hn Hd)).
Qed.

End Determinism.

(** ** Ranges and batches *)

Lemma range_from_lookup fuel start stop step k i :
  range_from fuel start stop step !! k = Some i →
  i = start + k * step ∧ i < stop.
Proof.
  revert start k. induction fuel as [|fuel IH]; intros start k; simpl; [done|].
  case_decide; [|done]. destruct k as [|k]; simpl.
  - intros [= <-]. lia.
  - intros [-> ?]%IH. lia.
Qed.

Lemma range_from_length fuel start stop step :
  0 < step → stop ≤ start + fuel * step →
  let n := length (range_from fuel start stop step) in
  stop ≤ start + n * step ∧ (0 < n → start + (n - 1) * step < stop).
Proof.
  intros Hstep. revert start. induction fuel as [|fuel IH]; intros start Hfuel; simpl.
  - lia.
  - case_decide; simpl; [|lia].
    destruct (IH (start + step)) as [H1 H2]; [lia|].
    split; [lia|]. intros _.
    destruct (length (range_from fuel (start + step) stop step)) as [|n'];
      simpl in *; [lia|].
    specialize (H2 ltac:(lia)). rewrite Nat.sub_0_r in *. lia.
Qed.

Section BatchesProps.
Context {A : Type}.
Implicit Types (l : list A).

Lemma slice_chunk l i B : slice l i (i + B) = take B (drop i l).
Proof. unfold slice. f_equal. lia. Qed.

Lemma chunks_concat_take fuel start B l j :
  0 < B → length l ≤ start + fuel * B →
  concat (take j (chunks_from fuel start B l)) = take (j * B) (drop start l).
Proof.
  intros HB. unfold chunks_from.
  revert start j. induction fuel as [|fuel IH]; intros start j Hfuel; simpl.
  - rewrite take_nil. simpl. rewrite drop_ge by lia. by rewrite take_nil.
  - case_decide; simpl.
    + destruct j as [|j]; simpl; [done|].
      rewrite IH by lia. rewrite slice_chunk.
      rewrite <-(take_take_drop (drop start l) B (j * B)).
      by rewrite drop_drop.
    + rewrite take_nil. simpl. rewrite drop_ge by lia. by rewrite take_nil.
Qed.

Lemma chunks_concat fuel start B l :
  0 < B → length l ≤ start + fuel * B →
  concat (chunks_from fuel start B l) = drop start l.
Proof.
  intros HB Hfuel.
  rewrite <-(take_ge (chunks_from fuel start B l)
               (length (chunks_from fuel start B l))) by done.
  rewrite chunks_concat_take by done.
  apply take_ge. rewrite length_drop. unfold chunks_from. rewrite length_map.
  pose proof (range_from_length fuel start (length l) B HB Hfuel) as [H _]. lia.
Qed.

Lemma make_batches_positive l (B : Z) :
  (0 < B)%Z →
  make_batches l B = Returned (chunks_from (length l) 0 (Z.to_nat B) l).
Proof.
  intros HB. unfold make_batches, range.
  rewrite decide_False by lia. rewrite decide_False by lia. done.
Qed.

Lemma chunks_from_lookup fuel start B l k batch :
  chunks_from fuel start B l !! k = Some batch →
  batch = take B (drop (start + k * B) l) ∧ start + k * B < length l.
Proof.
  unfold chunks_from. rewrite list_lookup_fmap.
  destruct (range_from fuel start (length l) B !! k) as [i|] eqn:Hi; [|done].
  apply range_from_lookup in Hi as [-> ?]. intros [= <-].
  by rewrite slice_chunk.
Qed.

Lemma chunks_from_sizes l B k batch :
  0 < B →
  chunks_from (length l) 0 B l !! k = Some batch →
  0 < length batch ≤ B
  ∧ (S k < length (chunks_from (length l) 0 B l) → length batch = B).
Proof.
  intros HB Hk. pose proof Hk as [-> Hlt]%chunks_from_lookup.
  rewrite length_take, length_drop. simpl in *. split; [lia|].
  intros HSk. apply lookup_lt_is_Some_2 in HSk as [batch' Hk'].
  apply chunks_from_lookup in Hk' as [_ Hlt']. simpl in Hlt'. lia.
Qed.

Lemma chunks_from_count l (B : Z) :
  (0 < B)%Z →
  Z.of_nat (length (chunks_from (length l) 0 (Z.to_nat B) l))
  = ((Z.of_nat (length l) + B - 1) / B)%Z.
Proof.
  intros HB. unfold chunks_from. rewrite length_map.
  destruct (range_from_length (length l) 0 (length l) (Z.to_nat B))
    as [Hup Hlow]; [lia|nia|].
  set (n := length (range_from (length l) 0 (length l) (Z.to_nat B))) in *.
  simpl in Hup, Hlow.
  apply (Z.div_unique_pos _ _ _
           (Z.of_nat (length l) + B - 1 - B * Z.of_nat n)); [|lia].
  destruct n as [|n]; [lia|].
  specialize (Hlow ltac:(lia)). simpl in Hlow. rewrite Nat.sub_0_r in Hlow.
  nia.
Qed.

End BatchesProps.

(** ** Checkpoint paths *)

Lemma string_length_app (s t : string) :
  String.length (s +:+ t) = String.length s + String.length t.
Proof. induction s as [|a s IH]; simpl; [done|by rewrite IH]. Qed.

Lemma string_app_inj_r (s1 s2 t : string) : s1 +:+ t = s2 +:+ t → s1 = s2.
Proof.
  revert s2. induction s1 as [|a s1 IH]; intros [|b s2] H.
  - done.
  - apply (f_equal String.length) in H.
    rewrite !string_length_app in H. simpl in H. lia.
  - apply (f_equal String.length) in H.
    rewrite !string_length_app in H. simpl in H. lia.
  - simpl in H. injection H as -> H. f_equal. by apply IH.
Qed.

Lemma checkpoint_path_inj dir (i j : Z) :
  checkpoint_path dir i = checkpoint_path dir j → i = j.
Proof.
  unfold checkpoint_path. intros H.
  apply (inj (String.app _)) in H. apply (inj (String.app _)) in H.
  apply string_app_inj_r in H. by apply (inj pretty) in H.
Qed.

(** ** Batch runs *)

Section PipelineProps.
Context {Input Output : Type}.
Variable process_text : Input → outcome Output.
Variable first_to_raise : list exn → nat.
Implicit Types (texts batch : list Input) (outputs results : list Output)
  (fs : gmap string (list Output)) (dir : option string).

Lemma gather_all batch outputs :
  all_succeed process_text batch outputs →
  gather first_to_raise (map process_text batch) = Returned outputs.
Proof.
  intros H. unfold all_succeed in H. unfold gather.
  assert (raised_of (map process_text batch) = []
          ∧ returned_of (map process_text batch) = outputs) as [-> ->]; [|done].
  induction H as [|x y batch outputs Hxy _ [IH1 IH2]]; simpl; [done|].
  rewrite Hxy. by rewrite IH1, IH2.
Qed.

Lemma sequential_all batch outputs results :
  all_succeed process_text batch outputs →
  sequential process_text batch results = Returned (results ++ outputs).
Proof.
  intros H. unfold all_succeed in H. revert results.
  induction H as [|x y batch outputs Hxy _ IH]; intros results; simpl.
  - by rewrite app_nil_r.
  - rewrite Hxy, IH. by rewrite <-(assoc_L (++)).
Qed.

Lemma batch_all (parallel : bool) batch outputs :
  all_succeed process_text batch outputs →
  (if parallel then gather first_to_raise (map process_text batch)
   else sequential process_text batch []) = Returned outputs.
Proof.
  intros H. destruct parallel; [by apply gather_all|].
  by rewrite (sequential_all _ outputs).
Qed.

Lemma batch_loop_all (parallel : bool) dir batches (outss : list (list Output)) :
  Forall2 (all_succeed process_text) batches outss →
  ∀ idx results fs,
    ∃ fs',
      batch_loop process_text first_to_raise parallel dir idx batches
        results fs = (Returned (results ++ concat outss), fs')
      ∧ (checkpointing dir = false → fs' = fs)
      ∧ (checkpointing dir = true →
         (∀ k, k < length batches →
            _load_checkpoint dir (Z.of_nat (idx + k)) fs'
            = Some (results ++ concat (take (S k) outss)))
         ∧ (∀ p, (∀ k, k < length batches →
                       p ≠ checkpoint_path dir (Z.of_nat (idx + k))) →
                 fs' !! p = fs !! p)).
Proof.
  induction 1 as [|batch outs batches outss Hb _ IH]; intros idx results fs.
  - exists fs. simpl. rewrite app_nil_r. repeat split; try done.
    intros k Hk. simpl in Hk. lia.
  - cbn [batch_loop]. rewrite (batch_all _ _ _ Hb).
    destruct (checkpointing dir) eqn:Hck.
    + destruct (IH (S idx) (results ++ outs)
                  (_save_checkpoint dir (Z.of_nat idx) (results ++ outs) fs))
        as (fs' & Hrun & _ & Hsaved).
      destruct (Hsaved eq_refl) as [Hload Hother].
      exists fs'. split; [|split; [done|intros _; split]].
      * rewrite Hrun. simpl. by rewrite <-(assoc_L (++)).
      * intros [|k] Hk; simpl in Hk.
        -- unfold _load_checkpoint. rewrite Hother.
           ++ unfold _save_checkpoint. rewrite Nat.add_0_r, lookup_insert_eq.
              simpl. by rewrite ?take_0, ?app_nil_r.
           ++ intros k Hk' Heq%checkpoint_path_inj. lia.
        -- replace (idx + S k) with (S idx + k) by lia.
           rewrite Hload by lia. simpl. by rewrite <-(assoc_L (++)).
      * intros p Hp. rewrite Hother.
        -- unfold _save_checkpoint. rewrite lookup_insert_ne; [done|].
           intros Heq. apply (Hp 0); [simpl; lia|]. by rewrite Nat.add_0_r.
        -- intros k Hk. replace (S idx + k) with (idx + S k) by lia.
           apply Hp. simpl. lia.
    + destruct (IH (S idx) (results ++ outs) fs) as (fs' & Hrun & Hsame & _).
      exists fs'. split; [|split; [auto|done]].
      rewrite Hrun. simpl. by rewrite <-(assoc_L (++)).
Qed.

Lemma all_succeed_length texts outputs :
  all_succeed process_text texts outputs → length texts = length outputs.
Proof. apply Forall2_length. Qed.

Lemma all_succeed_chunks texts outputs starts B :
  all_succeed process_text texts outputs →
  Forall2 (all_succeed process_text)
    (map (λ i, slice texts i (i + B)) starts)
    (map (λ i, slice outputs i (i + B)) starts).
Proof.
  intros H. induction starts as [|i starts IH]; simpl; constructor; [|done].
  unfold slice. by apply Forall2_take, Forall2_drop.
Qed.

Lemma process_batch_all dir texts outputs (B : Z) (parallel : bool) fs :
  (0 < B)%Z → all_succeed process_text texts outputs →
  ∃ fs',
    process_batch process_text first_to_raise dir texts B parallel fs
    = (Returned outputs, fs')
    ∧ (checkpointing dir = false → fs' = fs)
    ∧ (checkpointing dir = true →
       (∀ k, k < length (chunks_from (length texts) 0 (Z.to_nat B) texts) →
          _load_checkpoint dir (Z.of_nat k) fs'
          = Some (take (S k * Z.to_nat B) outputs))
       ∧ (∀ p, (∀ k, k < length (chunks_from (length texts) 0 (Z.to_nat B) texts) →
                     p ≠ checkpoint_path dir (Z.of_nat k)) →
               fs' !! p = fs !! p)).
Proof.
  intros HB Hall. unfold process_batch. rewrite make_batches_positive by done.
  pose proof (all_succeed_length _ _ Hall) as Hlen.
  destruct (batch_loop_all parallel dir
              (chunks_from (length texts) 0 (Z.to_nat B) texts)
              (chunks_from (length outputs) 0 (Z.to_nat B) outputs)
              ltac:(unfold chunks_from; rewrite <-Hlen;
                    by apply all_succeed_chunks) 0 [] fs)
    as (fs' & Hrun & Hoff & Hon).
  exists fs'. split; [|split; [done|]].
  - rewrite Hrun. simpl. rewrite chunks_concat by nia. done.
  - intros Hck. destruct (Hon Hck) as [Hload Hother]. split; [|done].
    intros k Hk. specialize (Hload k Hk). simpl in Hload.
    rewrite Hload. by rewrite chunks_concat_take by nia.
Qed.

Lemma raised_of_map batch e :
  e ∈ raised_of (map process_text batch)
  ↔ ∃ text, text ∈ batch ∧ process_text text = Raised e.
Proof.
  induction batch as [|x batch IH]; simpl.
  - split; [by intros ?%elem_of_nil|]. by intros (? & ?%elem_of_nil & _).
  - destruct (process_text x) as [y|e'] eqn:Hx.
    + rewrite IH. split.
      * intros (t & Ht & He). exists t. split; [by right|done].
      * intros (t & [->|Ht]%elem_of_cons & He); [congruence|by exists t].
    + rewrite elem_of_cons, IH. split.
      * intros [->|(t & Ht & He)]; [exists x; split; [by left|done]|].
        exists t. split; [by right|done].
      * intros (t & [->|Ht]%elem_of_cons & He); [left; congruence|].
        right. by exists t.
Qed.

Lemma nth_elem_of_default {A} (k : nat) (l : list A) (d : A) :
  d ∈ l → nth k l d ∈ l.
Proof.
  intros Hd. destruct (nth_in_or_default k l d) as [H|H].
  - by apply list_elem_of_In.
  - by rewrite H.
Qed.

Lemma gather_raised (aws : list (outcome Output)) e :
  gather first_to_raise aws = Raised e → e ∈ raised_of aws.
Proof.
  unfold gather. destruct (raised_of aws) as [|e0 es]; [done|].
  intros [= <-].
  exact (nth_elem_of_default (first_to_raise (e0 :: es)) (e0 :: es) e0
           (list_elem_of_here _ _)).
Qed.

Lemma gather_returned (aws : list (outcome Output)) outputs :
  gather first_to_raise aws = Returned outputs → raised_of aws = [].
Proof. unfold gather. by destruct (raised_of aws). Qed.

Lemma sequential_raised batch results e :
  sequential process_text batch results = Raised e →
  ∃ text, text ∈ batch ∧ process_text text = Raised e.
Proof.
  revert results. induction batch as [|x batch IH]; intros results; simpl; [done|].
  destruct (process_text x) as [y|e'] eqn:Hx.
  - intros (t & Ht & He)%IH. exists t. split; [by right|done].
  - intros [= <-]. exists x. split; [by left|done].
Qed.

Lemma sequential_returned batch results outputs :
  sequential process_text batch results = Returned outputs →
  ∀ text, text ∈ batch → ¬ fails process_text text.
Proof.
  revert results. induction batch as [|x batch IH]; intros results; simpl.
  - by intros _ t ?%elem_of_nil.
  - destruct (process_text x) as [y|e'] eqn:Hx; [|done].
    intros H t [->|Ht]%elem_of_cons; [|by eapply IH].
    intros [e He]. congruence.
Qed.

Lemma batch_outcome_raised (parallel : bool) batch e :
  (if parallel then gather first_to_raise (map process_text batch)
   else sequential process_text batch []) = Raised e →
  ∃ text, text ∈ batch ∧ process_text text = Raised e.
Proof.
  destruct parallel.
  - intros H%gather_raised. by apply raised_of_map.
  - apply sequential_raised.
Qed.

Lemma batch_outcome_returned (parallel : bool) batch outputs :
  (if parallel then gather first_to_raise (map process_text batch)
   else sequential process_text batch []) = Returned outputs →
  ∀ text, text ∈ batch → ¬ fails process_text text.
Proof.
  destruct parallel.
  - intros H%gather_returned t Ht [e He].
    assert (e ∈ raised_of (map process_text batch)) as Hin
      by (apply raised_of_map; eauto).
    rewrite H in Hin. by apply elem_of_nil in Hin.
  - apply sequential_returned.
Qed.

Lemma batch_loop_failure (parallel : bool) dir batches :
  ∀ idx results fs,
    (∃ text, text ∈ concat batches ∧ fails process_text text) →
    ∃ e fs',
      batch_loop process_text first_to_raise parallel dir idx batches
        results fs = (Raised e, fs')
      ∧ ∃ text, text ∈ concat batches ∧ process_text text = Raised e.
Proof.
  induction batches as [|batch batches IH]; intros idx results fs
    (t & Ht & Hfail); simpl in *.
  - by apply elem_of_nil in Ht.
  - destruct (if parallel then gather first_to_raise (map process_text batch)
              else sequential process_text batch []) as [outs|e] eqn:Hb.
    + apply elem_of_app in Ht as [Ht|Ht].
      { destruct (batch_outcome_returned _ _ _ Hb t Ht Hfail). }
      edestruct IH as (e & fs' & -> & t' & Ht' & He'); [by eauto|].
      exists e, fs'. split; [done|]. exists t'. split; [|done].
      apply elem_of_app. by right.
    + exists e, fs. split; [done|].
      apply batch_outcome_raised in Hb as (t' & Ht' & He').
      exists t'. split; [|done]. apply elem_of_app. by left.
Qed.

End PipelineProps.

(** ** Deciding the hypotheses on a concrete manager *)

Section Deciding.
Context {Data Ctx Config : Type}.
Implicit Types (m : StageManager Data Ctx Config).

Lemma all_deps_registered_list m :
  all_deps_registered m ↔ deps_registered_list m.
Proof.
  unfold all_deps_registered, deps_registered_list, depends_on.
  rewrite Forall_forall. split.
  - intros H s Hs. apply Forall_forall. intros d Hd. by eapply H.
  - intros H s d Hs Hd. specialize (H s Hs).
    rewrite Forall_forall in H. by apply H.
Qed.

Global Instance all_deps_registered_dec m : Decision (all_deps_registered m).
Proof.
  refine (cast_if (decide (deps_registered_list m)));
    by rewrite all_deps_registered_list.
Defined.

Global Instance depends_on_dec m s d : Decision (depends_on m s d).
Proof. unfold depends_on. apply _. Defined.

Global Instance ranked_dec m rank : Decision (ranked m rank).
Proof. unfold ranked. apply _. Defined.



(** *** Registration *)

Lemma register_stage_deps (stage : PipelineStage Data Ctx Config) deps m :
  deps_of (register_stage stage deps m).2 (name stage)
  = match nonempty_deps deps with
    | Some ds => ds
    | None => deps_of m (name stage)
    end.
Proof.
  unfold deps_of, register_stage. simpl.
  destruct (nonempty_deps deps); [|done]. by rewrite lookup_insert_eq.
Qed.

Lemma register_stage_other_deps (stage : PipelineStage Data Ctx Config)
    deps m k :
  k ≠ name stage → deps_of (register_stage stage deps m).2 k = deps_of m k.
Proof.
  intros Hk. unfold deps_of, register_stage. simpl.
  destruct (nonempty_deps deps); [|done]. by rewrite lookup_insert_ne.
Qed.

End Deciding.

Section Shape.
Context {Data Ctx Config Data' Ctx' Config' : Type}.

End Shape.

(** ** Substrings and ceilings *)

Lemma string_prefix_app (s t : string) : String.prefix s (s +:+ t) = true.
Proof.
  induction s as [|a s IH]; simpl; [by destruct t|].
  destruct (Ascii.ascii_dec a a); [done|congruence].
Qed.

Lemma contains_unfold (needle hay : string) :
  contains needle hay
  = String.prefix needle hay
    || match hay with
       | EmptyString => false
       | String _ hay' => contains needle hay'
       end.
Proof. by destruct hay. Qed.

Lemma contains_here (needle post : string) :
  contains needle (needle +:+ post) = true.
Proof. by rewrite contains_unfold, string_prefix_app. Qed.

Lemma contains_app (needle pre post : string) :
  contains needle (pre +:+ needle +:+ post) = true.
Proof.
  induction pre as [|a pre IH]; [exact (contains_here needle post)|].
  change (String a pre +:+ needle +:+ post)
    with (String a (pre +:+ needle +:+ post)).
  rewrite contains_unfold, IH. apply orb_true_r.
Qed.



Lemma ceil_div_bounds (a b : Z) :
  (0 < b)%Z → ((ceil_div a b - 1) * b < a ≤ ceil_div a b * b)%Z.
Proof.
  intros Hb. unfold ceil_div.
  pose proof (Z.div_mod (a + b - 1) b ltac:(lia)) as Hdm.
  pose proof (Z.mod_pos_bound (a + b - 1) b Hb) as Hm. nia.
Qed.

(** * The stage executor *)

(** C5, as the code has it.  Once the processor has returned [result]:
    when the validator accepts it, [execute] returns [result] unchanged;
    when the validator rejects it and a recovery function is configured,
    [execute] calls that function exactly once and returns what it
    returns, the validator not being called again (an exception of the
    recovery function is re-raised as a stage failure); when the
    validator rejects it and no recovery function is configured,
    [execute] raises a [PipelineStageError] whose message names the stage
    and whose context is the [ValueError] of the failed validation. *)
Theorem execute_validation_contract {Data Ctx Config : Type}
    (stage : PipelineStage Data Ctx Config) (data : Data)
    (context : option Ctx) (result : Data) (valid : bool) :
  processor stage data = Returned result →
  validator stage result = Returned valid →
  execute stage data context
  = match valid, recovery stage with
    | true, _ =>
        (Returned result,
         [CallProcessor (name stage); CallValidator (name stage)])
    | false, Some recover =>
        (wrap_failure stage (recover result context),
         [CallProcessor (name stage); CallValidator (name stage);
          CallRecovery (name stage)])
    | false, None =>
        (Raised (stage_failed stage
                   (ValueError ("Stage " +:+ name stage
                                +:+ " validation failed"))),
         [CallProcessor (name stage); CallValidator (name stage)])
    end.
Proof.
  intros Hp Hv. unfold execute, invoke. cbn. rewrite Hp. cbn. rewrite Hv.
  destruct valid; cbn; [reflexivity|].
  destruct (recovery stage) as [recover|]; cbn; [|reflexivity].
  destruct (recover result context); reflexivity.
Qed.

Lemma execute_validation_contract_witness :
  execute (demo_stage "S") 0 None
  = (Returned 1, [CallProcessor "S"; CallValidator "S"])
  ∧ execute recovering_stage 0 None
    = (Returned 101,
       [CallProcessor "S"; CallValidator "S"; CallRecovery "S"])
  ∧ execute rejecting_stage 0 None
    = (Raised (stage_failed rejecting_stage
                 (ValueError "Stage S validation failed")),
       [CallProcessor "S"; CallValidator "S"]).
Proof.
  split; [|split].
  - exact (execute_validation_contract (demo_stage "S") 0 None 1 true
             eq_refl eq_refl).
  - exact (execute_validation_contract recovering_stage 0 None 1 false
             eq_refl eq_refl).
  - exact (execute_validation_contract rejecting_stage 0 None 1 false
             eq_refl eq_refl).
Defined.

(** C5 as it is stated fails: a rejected result without a recovery
    function surfaces as a [PipelineStageError], the class of every
    other stage failure; the error of the failed validation is not what
    the caller gets, it is only the context of that error. *)
Lemma validation_failure_is_stage_error :
  processor rejecting_stage 0 = Returned 1
  ∧ validator rejecting_stage 1 = Returned false
  ∧ recovery rejecting_stage = None
  ∧ ∃ e, (execute rejecting_stage 0 None).1 = Raised e
         ∧ exn_class e = "PipelineStageError"
         ∧ exn_class e ≠ "StageValidationError"
         ∧ exn_class e ≠ "ValueError"
         ∧ exn_context e = Some (ValueError "Stage S validation failed").
Proof.
  split; [done|]. split; [done|]. split; [done|].
  eexists. split; [reflexivity|]. split; [reflexivity|].
  split; [simpl; discriminate|]. split; [simpl; discriminate|reflexivity].
Qed.

(** C6.  When the processor raises [e], [execute] raises a
    [PipelineStageError] instead, whose message carries the stage's name
    and the text of [e] and whose context is [e]; nothing but the
    processor has been called.  And whatever [execute] raises is such an
    annotated error. *)
Theorem execute_wraps_processor_failure {Data Ctx Config : Type}
    (stage : PipelineStage Data Ctx Config) (data : Data)
    (context : option Ctx) (e : exn) :
  processor stage data = Raised e →
  ∃ err,
    execute stage data context = (Raised err, [CallProcessor (name stage)])
    ∧ exn_class err = "PipelineStageError"
    ∧ exn_str err = "Stage " +:+ name stage +:+ " failed: " +:+ exn_str e
    ∧ contains (name stage) (exn_str err) = true
    ∧ exn_context err = Some e
    ∧ ∀ err' calls,
        execute stage data context = (Raised err', calls) →
        exn_class err' = "PipelineStageError" ∧ exn_context err' = Some e.
Proof.
  intros Hp. exists (stage_failed stage e).
  assert (execute stage data context
          = (Raised (stage_failed stage e), [CallProcessor (name stage)]))
    as Hrun.
  { unfold execute, invoke. cbn. rewrite Hp. reflexivity. }
  split; [done|]. split; [done|]. split; [done|]. split; [|split; [done|]].
  - simpl. apply (contains_app (name stage) "Stage ").
  - intros err' calls. rewrite Hrun. by intros [= <- _].
Qed.

Lemma execute_wraps_processor_failure_witness :
  processor crashing_stage 0 = Raised (ValueError "boom")
  ∧ ∃ err,
      execute crashing_stage 0 None = (Raised err, [CallProcessor "S"])
      ∧ exn_class err = "PipelineStageError"
      ∧ exn_str err = "Stage S failed: boom"
      ∧ exn_context err = Some (ValueError "boom").
Proof.
  split; [reflexivity|].
  destruct (execute_wraps_processor_failure crashing_stage 0 None
              (ValueError "boom") eq_refl)
    as (err & Hrun & Hclass & Hstr & _ & Hctx & _).
  exists err. split; [exact Hrun|]. split; [exact Hclass|].
  split; [exact Hstr|exact Hctx].
Defined.

(** Settles a decidable statement about concrete data by evaluation. *)
Ltac decide_by_computation :=
  match goal with
  | |- ?P => apply (bool_decide_unpack P); vm_compute; exact I
  end.

(** * The stage manager *)

Lemma cyclic_manager_cycle : on_cycle cyclic_manager "A".
Proof.
  apply (tc_l _ "A" "B" "A").
  - decide_by_computation.
  - apply tc_once. decide_by_computation.
Defined.

(** C1 as it is stated fails: with [A] depending on [B] and [B] on [A],
    both registered, the order is computed and no error is raised. *)
Lemma cycle_is_not_reported :
  on_cycle cyclic_manager "A"
  ∧ all_deps_registered cyclic_manager
  ∧ get_execution_order cyclic_manager = Some (Returned ["B"; "A"]).
Proof.
  split; [exact cyclic_manager_cycle|]. split; [|reflexivity].
  decide_by_computation.
Qed.



(** C3, as the code has it.  Registering a stage under a name that is
    already registered does not fail: the call returns, the new stage
    takes the place of the old one at the same position of the
    registration order, the other stages and their dependency lists are
    untouched, and the dependency list of the name is replaced when a
    non-empty list is given and kept otherwise. *)
Theorem register_stage_existing_name {Data Ctx Config : Type}
    (m : StageManager Data Ctx Config)
    (stage : PipelineStage Data Ctx Config) (deps : option (list string)) :
  name stage ∈ stage_names m →
  ∃ m',
    register_stage stage deps m = (Returned tt, m')
    ∧ stage_names m' = stage_names m
    ∧ dict_get (name stage) (stages m') = Some stage
    ∧ (∀ k, k ≠ name stage →
            dict_get k (stages m') = dict_get k (stages m)
            ∧ deps_of m' k = deps_of m k)
    ∧ deps_of m' (name stage)
      = match nonempty_deps deps with
        | Some ds => ds
        | None => deps_of m (name stage)
        end.
Proof.
  intros Hin. exists (register_stage stage deps m).2.
  split; [done|]. split; [|split; [|split]].
  - by apply dict_set_names_present.
  - apply dict_get_set_eq.
  - intros k Hk. split; [by apply dict_get_set_ne|].
    by apply register_stage_other_deps.
  - apply register_stage_deps.
Qed.

Lemma register_stage_existing_name_witness :
  name replacement_stage ∈ stage_names single_manager
  ∧ ∃ m',
      register_stage replacement_stage None single_manager = (Returned tt, m')
      ∧ stage_names m' = stage_names single_manager
      ∧ dict_get "A" (stages m') = Some replacement_stage.
Proof.
  assert (name replacement_stage ∈ stage_names single_manager) as Hin.
  { decide_by_computation. }
  split; [exact Hin|].
  destruct (register_stage_existing_name single_manager replacement_stage
              None Hin)
    as (m' & Hrun & Hnames & Hget & _).
  exists m'. split; [exact Hrun|]. split; [exact Hnames|exact Hget].
Defined.

(** C3 as it is stated fails: registering a second stage under the name
    [A] returns normally, changes the registry and replaces the stage
    that was there. *)
Lemma duplicate_registration_replaces :
  "A" ∈ stage_names single_manager
  ∧ dict_get "A" (stages single_manager) = Some (demo_stage "A")
  ∧ (register_stage replacement_stage None single_manager).1 = Returned tt
  ∧ dict_get "A"
      (stages (register_stage replacement_stage None single_manager).2)
    = Some replacement_stage
  ∧ replacement_stage ≠ demo_stage "A"
  ∧ (register_stage replacement_stage None single_manager).2
    ≠ single_manager.
Proof.
  split; [decide_by_computation|]. split; [reflexivity|].
  split; [reflexivity|]. split; [reflexivity|].
  assert (replacement_stage ≠ demo_stage "A") as Hne.
  { intros H. apply (f_equal config) in H. discriminate H. }
  split; [exact Hne|].
  intros H. apply (f_equal (λ m, dict_get "A" (stages m))) in H.
  apply Hne. by injection H.
Qed.




(** * Batches and checkpoints *)

(** C7.  For a positive batch size [B], the texts are cut into
    [ceil (L / B)] consecutive batches whose concatenation is the input;
    batch [k] holds the texts from position [k * B] on, at most [B] of
    them and at least one, and every batch but the last holds [B].  When
    every text is processed successfully, the results split into batches
    in the same way, batch by batch they are the results of the texts of
    that batch, and their concatenation in batch order, which is what
    [process_batch] returns, lists the results in the order of the
    texts.  Seven texts with batch size three make batches of sizes
    three, three and one, and with checkpointing on the run leaves three
    checkpoint files. *)
Theorem process_batch_partition :
  (∀ (Input Output : Type) (process_text : Input → outcome Output)
     (first_to_raise : list exn → nat) (texts : list Input) (B : Z),
      (0 < B)%Z →
      ∃ batches,
        make_batches texts B = Returned batches
        ∧ Z.of_nat (length batches) = ceil_div (Z.of_nat (length texts)) B
        ∧ concat batches = texts
        ∧ (∀ k batch, batches !! k = Some batch →
             batch = take (Z.to_nat B) (drop (k * Z.to_nat B) texts)
             ∧ 0 < length batch ≤ Z.to_nat B
             ∧ (S k < length batches → length batch = Z.to_nat B))
        ∧ (∀ outputs (parallel : bool) dir fs,
             all_succeed process_text texts outputs →
             ∃ outss,
               make_batches outputs B = Returned outss
               ∧ Forall2 (all_succeed process_text) batches outss
               ∧ concat outss = outputs
               ∧ (process_batch process_text first_to_raise dir texts B
                    parallel fs).1 = Returned (concat outss)))
  ∧ make_batches (seq 1 7) 3 = Returned [[1; 2; 3]; [4; 5; 6]; [7]]
  ∧ (process_batch times_ten first_in_order (Some "ck") (seq 1 7) 3 true
       ∅).1 = Returned [10; 20; 30; 40; 50; 60; 70]
  ∧ size (process_batch times_ten first_in_order (Some "ck") (seq 1 7) 3
            true ∅).2 = 3.
Proof.
  split; [|split; [reflexivity|split; [reflexivity|by vm_compute]]].
  intros Input Output process_text first_to_raise texts B HB.
  exists (chunks_from (length texts) 0 (Z.to_nat B) texts).
  split; [by apply make_batches_positive|].
  split; [by apply chunks_from_count|].
  split; [apply (chunks_concat (length texts) 0); [lia|nia]|].
  split.
  - intros k batch Hk. split.
    + by apply chunks_from_lookup in Hk as [-> _].
    + apply chunks_from_sizes; [lia|done].
  - intros outputs parallel dir fs Hall.
    pose proof (all_succeed_length _ _ _ Hall) as Hlen.
    assert (concat (chunks_from (length outputs) 0 (Z.to_nat B) outputs)
            = outputs) as Hcat.
    { apply (chunks_concat (length outputs) 0); [lia|nia]. }
    exists (chunks_from (length outputs) 0 (Z.to_nat B) outputs).
    split; [by apply make_batches_positive|]. split; [|split; [done|]].
    + unfold chunks_from. rewrite <-Hlen. by apply all_succeed_chunks.
    + destruct (process_batch_all process_text first_to_raise dir texts
                  outputs B parallel fs HB Hall) as (fs' & -> & _).
      by rewrite Hcat.
Qed.

Lemma process_batch_partition_witness :
  (0 < 3)%Z
  ∧ ∃ batches,
      make_batches (seq 1 7) 3 = Returned batches
      ∧ Z.of_nat (length batches) = ceil_div 7 3
      ∧ concat batches = seq 1 7.
Proof.
  split; [reflexivity|].
  destruct (proj1 process_batch_partition nat nat times_ten first_in_order
              (seq 1 7) 3%Z eq_refl)
    as (batches & Hmake & Hcount & Hcat & _).
  exists batches. split; [exact Hmake|]. split; [exact Hcount|exact Hcat].
Defined.

(** C8 as it is stated fails: with four texts in batches of two, the
    checkpoint of batch 1 holds the results of all four texts, not only
    the two results computed for batch 1. *)
Lemma checkpoint_holds_all_results_so_far :
  make_batches [1; 2; 3; 4] 2 = Returned [[1; 2]; [3; 4]]
  ∧ map times_ten [3; 4] = [Returned 30; Returned 40]
  ∧ _load_checkpoint (Some "ck") 1
      (process_batch times_ten first_in_order (Some "ck") [1; 2; 3; 4] 2
         true ∅).2
    = Some [10; 20; 30; 40]
  ∧ _load_checkpoint (Some "ck") 1
      (process_batch times_ten first_in_order (Some "ck") [1; 2; 3; 4] 2
         true ∅).2
    ≠ Some [30; 40].
Proof.
  assert (_load_checkpoint (Some "ck") 1
            (process_batch times_ten first_in_order (Some "ck") [1; 2; 3; 4]
               2 true ∅).2
          = Some [10; 20; 30; 40]) as Hload by (by vm_compute).
  split; [reflexivity|]. split; [reflexivity|]. split; [exact Hload|].
  rewrite Hload. discriminate.
Qed.

(** C9, as the code has it.  In parallel mode the failure of an item
    fails the whole call: when processing some text raises,
    [process_batch] raises the exception of one failing text, as it was
    raised, and returns no result for any text. *)
Theorem parallel_batch_failure_propagates {Input Output : Type}
    (process_text : Input → outcome Output)
    (first_to_raise : list exn → nat) (dir : option string)
    (texts : list Input) (B : Z) (fs : gmap string (list Output)) :
  (0 < B)%Z →
  (∃ text, text ∈ texts ∧ fails process_text text) →
  ∃ e fs',
    process_batch process_text first_to_raise dir texts B true fs
    = (Raised e, fs')
    ∧ ∃ text, text ∈ texts ∧ process_text text = Raised e.
Proof.
  intros HB Hfail. unfold process_batch. rewrite make_batches_positive by done.
  pose proof (chunks_concat (length texts) 0 (Z.to_nat B) texts
                ltac:(lia) ltac:(nia)) as Hcat.
  change (drop 0 texts) with texts in Hcat.
  destruct Hfail as (t0 & Ht0 & Hf0).
  destruct (batch_loop_failure process_text first_to_raise true dir
              (chunks_from (length texts) 0 (Z.to_nat B) texts) 0 [] fs)
    as (e & fs' & Hrun & t & Ht & He).
  { exists t0. by rewrite Hcat. }
  exists e, fs'. split; [done|]. exists t. split; [|done]. by rewrite <-Hcat.
Qed.

Lemma parallel_batch_failure_propagates_witness :
  (0 < 5)%Z
  ∧ (∃ text, text ∈ [1; 2] ∧ fails fails_on_one text)
  ∧ ∃ e fs',
      process_batch fails_on_one first_in_order None [1; 2] 5 true ∅
      = (Raised e, fs')
      ∧ ∃ text, text ∈ [1; 2] ∧ fails_on_one text = Raised e.
Proof.
  assert (∃ text, text ∈ [1; 2] ∧ fails fails_on_one text) as Hfail.
  { exists 1. split; [decide_by_computation|].
    exists (ValueError "bad text"). reflexivity. }
  split; [reflexivity|]. split; [exact Hfail|].
  exact (parallel_batch_failure_propagates fails_on_one first_in_order None
           [1; 2] 5 ∅ eq_refl Hfail).
Defined.

(** C9 as it is stated fails: in a parallel batch of two texts of which
    the first fails and the second succeeds, the call raises the first
    text's exception itself, not an aggregate, and the second text's
    result is not returned. *)
Lemma parallel_failure_masks_other_results :
  fails_on_one 1 = Raised (ValueError "bad text")
  ∧ fails_on_one 2 = Returned 20
  ∧ process_batch fails_on_one first_in_order None [1; 2] 5 true ∅
    = (Raised (ValueError "bad text"), ∅)
  ∧ exn_class (ValueError "bad text") ≠ "BatchError".
Proof.
  split; [reflexivity|]. split; [reflexivity|]. split; [reflexivity|].
  simpl. discriminate.
Qed.

(** * Further properties of the stage executor and the stage manager *)

Section StageExtras.
Context {Data Ctx Config : Type}.
Implicit Types (m : StageManager Data Ctx Config) (order : list string)
  (stage : PipelineStage Data Ctx Config) (data result : Data)
  (context : option Ctx).

Lemma execute_cases stage data context :
  execute stage data context
  = match processor stage data with
    | Raised e => (Raised (stage_failed stage e), [CallProcessor (name stage)])
    | Returned result =>
        match validator stage result with
        | Raised e =>
            (Raised (stage_failed stage e),
             [CallProcessor (name stage); CallValidator (name stage)])
        | Returned true =>
            (Returned result,
             [CallProcessor (name stage); CallValidator (name stage)])
        | Returned false =>
            match recovery stage with
            | Some recover =>
                (wrap_failure stage (recover result context),
                 [CallProcessor (name stage); CallValidator (name stage);
                  CallRecovery (name stage)])
            | None =>
                (Raised (stage_failed stage (validation_failed stage)),
                 [CallProcessor (name stage); CallValidator (name stage)])
            end
        end
    end.
Proof.
  unfold execute, invoke. cbn.
  destruct (processor stage data) as [result|e]; cbn; [|done].
  destruct (validator stage result) as [[|]|e]; cbn; [done| |done].
  destruct (recovery stage) as [recover|]; cbn; [|done].
  by destruct (recover result context).
Qed.

Lemma execute_raised_is_stage_failure stage data context err calls :
  execute stage data context = (Raised err, calls) →
  ∃ cause, err = stage_failed stage cause.
Proof.
  rewrite execute_cases.
  destruct (processor stage data) as [result|e]; [|intros [= <- _]; eauto].
  destruct (validator stage result) as [[|]|e];
    [done| |intros [= <- _]; eauto].
  destruct (recovery stage) as [recover|]; [|intros [= <- _]; eauto].
  destruct (recover result context) as [r|e]; [done|].
  intros [= <- _]. eauto.
Qed.

(** X1. Whatever [StageExecutor.execute] raises is the [PipelineStageError]
    of its stage, chained to its cause, and the cause is one of four: the
    exception of the processor, the exception of the validator, the
    [ValueError] "Stage <name> validation failed" when the validator
    returned false and the stage has no recovery function, or the
    exception of the recovery function. *)
Theorem execute_raises_only_stage_failures stage data context err calls :
  execute stage data context = (Raised err, calls) →
  ∃ cause,
    err = stage_failed stage cause
    ∧ (processor stage data = Raised cause
       ∨ ∃ result,
           processor stage data = Returned result
           ∧ (validator stage result = Raised cause
              ∨ (validator stage result = Returned false
                 ∧ ((recovery stage = None
                     ∧ cause = validation_failed stage)
                    ∨ ∃ recover,
                        recovery stage = Some recover
                        ∧ recover result context = Raised cause)))).
Proof.
  rewrite execute_cases.
  destruct (processor stage data) as [result|e] eqn:Hp.
  - destruct (validator stage result) as [[|]|e] eqn:Hv.
    + done.
    + destruct (recovery stage) as [recover|] eqn:Hr.
      * destruct (recover result context) as [r|e] eqn:Hrec; [done|].
        intros [= <- _]. exists e. split; [done|]. right. exists result.
        split; [done|]. right. split; [done|]. right. by exists recover.
      * intros [= <- _]. exists (validation_failed stage). split; [done|].
        right. exists result. split; [done|]. right. split; [done|]. by left.
    + intros [= <- _]. exists e. split; [done|]. right. exists result.
      split; [done|]. by left.
  - intros [= <- _]. exists e. split; [done|]. by left.
Qed.

(** X2. When [StageExecutor.execute] returns, the processor returned and
    either the validator accepted its result, which is then the value
    returned after exactly one processor and one validator call, or the
    validator rejected it and the value returned is what the recovery
    function returned, after exactly one call of each of the three. *)
Theorem execute_returns_accepted_or_recovered stage data context r calls :
  execute stage data context = (Returned r, calls) →
  ∃ result,
    processor stage data = Returned result
    ∧ ((validator stage result = Returned true ∧ r = result
        ∧ calls = [CallProcessor (name stage); CallValidator (name stage)])
       ∨ (validator stage result = Returned false
          ∧ (∃ recover, recovery stage = Some recover
                        ∧ recover result context = Returned r)
          ∧ calls = [CallProcessor (name stage); CallValidator (name stage);
                     CallRecovery (name stage)])).
Proof.
  rewrite execute_cases.
  destruct (processor stage data) as [result|e] eqn:Hp; [|done].
  destruct (validator stage result) as [[|]|e] eqn:Hv; [| |done].
  - intros [= <- <-]. exists result. split; [done|]. by left.
  - destruct (recovery stage) as [recover|] eqn:Hr; [|done].
    destruct (recover result context) as [r'|e] eqn:Hrec; [|done].
    intros [= <- <-]. exists result. split; [done|]. right.
    split; [done|]. split; [by exists recover|done].
Qed.

Lemma execute_processor_calls stage data context :
  processor_calls (execute stage data context).2 = [name stage].
Proof.
  rewrite execute_cases.
  destruct (processor stage data) as [result|e]; [|done].
  destruct (validator stage result) as [[|]|e]; [done| |done].
  by destruct (recovery stage).
Qed.
End StageExtras.

Section DictExtras.
Context {V : Type}.
Implicit Types (d : list (string * V)).

Lemma dict_get_Some_names k v d : dict_get k d = Some v → k ∈ d.*1.
Proof.
  induction d as [|[k' v'] d IH]; simpl; [done|].
  case_decide; [subst; set_solver|]. intros ?%IH. set_solver.
Qed.

Lemma dict_get_is_Some k d : k ∈ d.*1 → is_Some (dict_get k d).
Proof.
  induction d as [|[k' v'] d IH]; simpl; [by intros ?%elem_of_nil|].
  case_decide; [by eauto|]. intros [?|?]%elem_of_cons; [done|by apply IH].
Qed.
End DictExtras.

Section ManagerExtras.
Context {Data Ctx Config : Type}.
Implicit Types (m : StageManager Data Ctx Config) (order : list string)
  (stage : PipelineStage Data Ctx Config) (data result : Data)
  (context : option Ctx).

Lemma register_stage_invariant stage deps m :
  registry_invariant m → registry_invariant (register_stage stage deps m).2.
Proof.
  intros (ND & Hfiled & Hdeps). split; [|split].
  - by apply dict_set_NoDup.
  - intros k st. simpl. destruct (decide (k = name stage)) as [->|Hne].
    + rewrite dict_get_set_eq. by intros [= <-].
    + rewrite dict_get_set_ne by done. apply Hfiled.
  - assert (∀ k, k ∈ stage_names m →
                 k ∈ stage_names (register_stage stage deps m).2) as Hkeep.
    { intros k Hk. unfold stage_names. simpl.
      destruct (decide (name stage ∈ (stages m).*1)).
      - by rewrite dict_set_names_present.
      - rewrite dict_set_names_fresh by done. set_solver. }
    assert (name stage ∈ stage_names (register_stage stage deps m).2) as Hnew.
    { eapply dict_get_Some_names. apply dict_get_set_eq. }
    intros k ds. simpl. destruct deps as [[|d deps]|]; simpl.
    + intros Hk. destruct (Hdeps k ds Hk). auto.
    + destruct (decide (k = name stage)) as [->|Hne].
      * rewrite lookup_insert_eq. by intros [= <-].
      * rewrite lookup_insert_ne by done.
        intros Hk. destruct (Hdeps k ds Hk). auto.
    + intros Hk. destruct (Hdeps k ds Hk). auto.
Qed.

Lemma traced_bind_unfold {A B} (t : traced A) (k : A → traced B) :
  t ≫= k
  = match t with
    | (Returned a, calls) => ((k a).1, calls ++ (k a).2)
    | (Raised e, calls) => (Raised e, calls)
    end.
Proof. destruct t as [[a|e] calls]; [|done]. cbn. by destruct (k a). Qed.

Lemma run_stages_cons m s order data context :
  run_stages m (s :: order) data context
  = match dict_get s (stages m) with
    | None => throw (KeyError s)
    | Some stage =>
        execute stage data context ≫= λ r, run_stages m order r context
    end.
Proof. done. Qed.

Lemma run_stages_spec m order data context :
  well_filed m → (∀ s, s ∈ order → s ∈ stage_names m) →
  match run_stages m order data context with
  | (Returned r, calls) => processor_calls calls = order
  | (Raised e, calls) =>
      ∃ pre s post stage cause,
        order = pre ++ s :: post
        ∧ dict_get s (stages m) = Some stage
        ∧ e = stage_failed stage cause
        ∧ processor_calls calls = pre ++ [s]
  end.
Proof.
  intros Hfiled. revert data.
  induction order as [|s order IH]; intros data Hin; [done|].
  rewrite run_stages_cons.
  destruct (dict_get_is_Some s (stages m)) as [stage Hget]; [set_solver|].
  rewrite Hget, traced_bind_unfold.
  pose proof (execute_processor_calls stage data context) as Hcalls.
  rewrite (Hfiled _ _ Hget) in Hcalls.
  destruct (execute stage data context) as [[r|e] calls] eqn:Hexec;
    simpl in Hcalls.
  - specialize (IH r ltac:(set_solver)).
    destruct (run_stages m order r context) as [[r'|e] calls']; simpl.
    + unfold processor_calls in *. by rewrite omap_app, Hcalls, IH.
    + destruct IH as (pre & s' & post & stage' & cause & -> & Hget' & -> & Hc).
      exists (s :: pre), s', post, stage', cause.
      split; [done|]. split; [done|]. split; [done|].
      unfold processor_calls in *. by rewrite omap_app, Hcalls, Hc.
  - apply execute_raised_is_stage_failure in Hexec as (cause & ->).
    by exists [], s, order, stage, cause.
Qed.
End ManagerExtras.

Section PipelineRunExtras.
Context {Data Ctx Config : Type}.
Implicit Types (m : StageManager Data Ctx Config) (order : list string)
  (stage : PipelineStage Data Ctx Config) (data result : Data)
  (context : option Ctx).

Lemma register_all_invariant
    (regs : list (PipelineStage Data Ctx Config * option (list string))) m :
  registry_invariant m → registry_invariant (register_all regs m).
Proof.
  revert m. induction regs as [|[stage deps] regs IH]; intros m Hm; [done|].
  simpl. apply IH. by apply register_stage_invariant.
Qed.

Lemma new_manager_invariant :
  registry_invariant (new_manager : StageManager Data Ctx Config).
Proof.
  split; [constructor|]. split; [done|]. intros k ds. simpl.
  by rewrite lookup_empty.
Qed.

(** X3. Every manager built by [register_stage] calls from a fresh one is
    well formed: no name is listed twice, every stage is stored under its
    own name, and a dependency list is stored only under the name of a
    registered stage and is never empty. *)
Theorem registered_manager_is_well_formed
    (regs : list (PipelineStage Data Ctx Config * option (list string))) :
  let m := register_all regs new_manager in
  NoDup (stage_names m)
  ∧ (∀ k stage, dict_get k (stages m) = Some stage → name stage = k)
  ∧ (∀ k ds, dependencies m !! k = Some ds → k ∈ stage_names m ∧ ds ≠ []).
Proof.
  exact (register_all_invariant regs new_manager new_manager_invariant).
Qed.

(** X5. A run of [execute_stages] that returns has called the processor of
    every registered stage exactly once, in the order computed by
    [get_execution_order]; when the dependencies have no cycle, the
    processor of every prerequisite was called before the processor of the
    stage that declares it. *)
Theorem execute_stages_runs_every_stage_once m data context r calls :
  well_filed m →
  execute_stages m data context = Some (Returned r, calls) →
  ∃ order,
    get_execution_order m = Some (Returned order)
    ∧ processor_calls calls = order
    ∧ NoDup (processor_calls calls)
    ∧ (∀ s, s ∈ processor_calls calls ↔ s ∈ stage_names m)
    ∧ (acyclic m →
       ∀ s d, s ∈ stage_names m → depends_on m s d →
              precedes (processor_calls calls) d s).
Proof.
  intros Hfiled. unfold execute_stages.
  pose proof (get_execution_order_spec m) as Hspec.
  destruct (get_execution_order m) as [[order|e]|]; [|done..].
  destruct Hspec as (ND & Hsame & Hreg & Hsort). intros [= Hrun].
  pose proof (run_stages_spec m order data context Hfiled
                (λ s Hs, proj1 (Hsame s) Hs)) as Hcalls.
  rewrite Hrun in Hcalls. exists order. rewrite Hcalls.
  split; [done|]. split; [done|]. split; [done|]. split; [done|].
  intros Hacyc s d Hs Hsd.
  eapply sorted_acyclic_precedes; [done|by apply Hsame|by apply Hacyc|done].
Qed.

End PipelineRunExtras.

Section RegistryContents.
Context {Data Ctx Config : Type}.
Implicit Types (m : StageManager Data Ctx Config)
  (stage : PipelineStage Data Ctx Config)
  (regs : list (PipelineStage Data Ctx Config * option (list string))).

Lemma register_all_snoc_names regs stage deps m :
  stage_names (register_all (regs ++ [(stage, deps)]) m)
  = if decide (name stage ∈ stage_names (register_all regs m))
    then stage_names (register_all regs m)
    else stage_names (register_all regs m) ++ [name stage].
Proof.
  rewrite register_all_snoc. unfold stage_names at 1. simpl. case_decide.
  - by apply dict_set_names_present.
  - by apply dict_set_names_fresh.
Qed.

(** X4. What a sequence of [register_stage] calls leaves in a fresh
    manager: the names are kept in the order of their first registration,
    the stage stored under a name is the last one registered under it, and
    the dependencies of a name are those of the last registration of it
    that passed a non-empty list (a later registration without
    dependencies does not remove them). *)
Theorem register_all_contents regs :
  let m := register_all regs new_manager in
  stage_names m = reverse (remove_dups (reverse (name ∘ fst <$> regs)))
  ∧ (∀ k, dict_get k (stages m) = fst <$> last (registrations_of k regs))
  ∧ (∀ k, deps_of m k
          = default []
              (last (dependency_registrations_of k regs)
                 ≫= nonempty_deps ∘ snd)).
Proof.
  simpl. induction regs as [|[stage deps] regs (IHn & IHs & IHd)] using rev_ind.
  - split; [done|]. split; [done|]. intros k. unfold deps_of. simpl.
    by rewrite lookup_empty.
  - split; [|split].
    + rewrite register_all_snoc_names, IHn, fmap_app, reverse_app. simpl.
      assert (name stage ∈ reverse (remove_dups (reverse (name ∘ fst <$> regs)))
              ↔ name stage ∈ reverse (name ∘ fst <$> regs)) as Hiff.
      { by rewrite elem_of_reverse, elem_of_remove_dups. }
      destruct (decide_rel elem_of (name stage)
                  (reverse (name ∘ fst <$> regs))) as [Hin|Hin].
      * rewrite decide_True by (by apply Hiff). done.
      * rewrite decide_False by (by rewrite Hiff). by rewrite reverse_cons.
    + intros k. rewrite register_all_snoc. simpl.
      unfold registrations_of. rewrite filter_app, filter_cons, filter_nil.
      simpl. destruct (decide (name stage = k)) as [<-|Hne].
      * by rewrite dict_get_set_eq, last_snoc.
      * rewrite dict_get_set_ne by done. rewrite app_nil_r. apply IHs.
    + intros k. rewrite register_all_snoc.
      unfold dependency_registrations_of.
      rewrite filter_app, filter_cons, filter_nil.
      destruct (decide (k = name stage)) as [->|Hne].
      * rewrite register_stage_deps. simpl.
        destruct (nonempty_deps deps) as [ds|] eqn:Hdeps.
        -- rewrite decide_True by (split; [done|by eexists]).
           rewrite last_snoc. simpl. by rewrite Hdeps.
        -- rewrite decide_False by (intros [_ [? ?]]; congruence).
           rewrite app_nil_r. apply IHd.
      * rewrite register_stage_other_deps by done. simpl.
        rewrite decide_False by (intros [? _]; congruence).
        rewrite app_nil_r. apply IHd.
Qed.
End RegistryContents.

Section ExtensionExtras.
Context {Data Ctx Config : Type}.
Implicit Types (m om : StageManager Data Ctx Config) (order : list string)
  (stage : PipelineStage Data Ctx Config) (data result : Data)
  (context : option Ctx).

Lemma traced_bind_assoc {A B C} (t : traced A) (k : A → traced B)
    (k' : B → traced C) :
  (t ≫= k) ≫= k' = t ≫= λ a, k a ≫= k'.
Proof.
  destruct t as [[a|e] calls]; [|done]. cbn.
  destruct (k a) as [[b|e] calls1]; cbn; [|done].
  destruct (k' b) as [o calls2]. by rewrite (assoc_L (++)).
Qed.

Lemma traced_bind_ret {A} (t : traced A) : t ≫= mret = t.
Proof. destruct t as [[a|e] calls]; [|done]. cbn. by rewrite app_nil_r. Qed.

Lemma traced_bind_ext {A B} (t : traced A) (k k' : A → traced B) :
  (∀ a, k a = k' a) → t ≫= k = t ≫= k'.
Proof. intros H. destruct t as [[a|e] calls]; [|done]. cbn. by rewrite H. Qed.

Lemma run_stages_app m order1 order2 data context :
  run_stages m (order1 ++ order2) data context
  = run_stages m order1 data context ≫= λ r, run_stages m order2 r context.
Proof.
  revert data. induction order1 as [|s order1 IH]; intros data.
  - simpl. cbn. destruct (run_stages m order2 data context). done.
  - rewrite <-app_comm_cons, !run_stages_cons.
    destruct (dict_get s (stages m)) as [stage|]; [|done].
    rewrite traced_bind_assoc. by apply traced_bind_ext.
Qed.

Lemma run_stages_agree m om order data context :
  (∀ s, s ∈ order → dict_get s (stages om) = dict_get s (stages m)) →
  run_stages om order data context = run_stages m order data context.
Proof.
  revert data. induction order as [|s order IH]; intros data Hget; [done|].
  rewrite !run_stages_cons, Hget by set_solver.
  destruct (dict_get s (stages m)) as [stage|]; [|done].
  apply traced_bind_ext. intros r. apply IH. set_solver.
Qed.

Lemma for_each_stage_app (f : visitor) l1 l2 st :
  for_each_stage f (l1 ++ l2) st
  = match for_each_stage f l1 st with
    | Some (Returned st') => for_each_stage f l2 st'
    | r => r
    end.
Proof.
  revert st. induction l1 as [|s l1 IH]; intros st; simpl; [done|].
  destruct (f s st) as [[st'|e]|]; [apply IH|done..].
Qed.

Lemma for_each_stage_agree (f g : visitor) l :
  (∀ s st, s ∈ l → f s st = g s st) →
  ∀ st, for_each_stage f l st = for_each_stage g l st.
Proof.
  induction l as [|s l IH]; intros Hfg st; simpl; [done|].
  rewrite Hfg by set_solver.
  destruct (g s st) as [[st'|e]|]; [|done..]. apply IH.
  intros s' st'' Hs'. apply Hfg. set_solver.
Qed.

Lemma for_each_dep_agree m om (f g : visitor) l :
  (∀ d, d ∈ l → d ∈ stage_names m ∧ d ∈ stage_names om) →
  (∀ s st, s ∈ stage_names m → f s st = g s st) →
  ∀ st, for_each_dep om f l st = for_each_dep m g l st.
Proof.
  intros Hl Hfg. induction l as [|d l IH]; intros st; simpl; [done|].
  destruct (Hl d) as [Hd Hd']; [set_solver|].
  rewrite !decide_True by done. rewrite Hfg by done.
  destruct (g d st) as [[st'|e]|]; [|done..]. apply IH. set_solver.
Qed.

(** The traversal of a manager that extends [m] by further names agrees
    with the traversal of [m] on the stages of [m]. *)
Lemma visit_agree m om n :
  all_deps_registered m →
  (∀ s, s ∈ stage_names m → s ∈ stage_names om) →
  (∀ s, s ∈ stage_names m → deps_of om s = deps_of m s) →
  ∀ s st, s ∈ stage_names m → visit n om s st = visit n m s st.
Proof.
  intros Hreg Hnames Hdeps.
  induction n as [|n IH]; intros s [V O] Hs; [done|].
  rewrite !visit_unfold. case_decide; [done|]. rewrite Hdeps by done.
  rewrite (for_each_dep_agree m om (visit n om) (visit n m)); [done| |done].
  intros d Hd. split; [by eapply Hreg|]. apply Hnames. by eapply Hreg.
Qed.

Lemma traversal_final_state m fuel :
  all_deps_registered m → length (stages m) < fuel →
  ∃ (visited : gset string) order,
    for_each_stage (visit fuel m) (stage_names m) (∅, [])
    = Some (Returned (visited, order))
    ∧ (∀ x, x ∈ visited ↔ x ∈ stage_names m)
    ∧ get_execution_order m = Some (Returned order).
Proof.
  intros Hreg Hfuel.
  pose proof (get_execution_order_fuel_enough m fuel Hfuel) as Henough.
  unfold get_execution_order_fuel in Henough.
  assert (dfs_spec m (stage_names m) (∅, [])
            (for_each_stage (visit fuel m) (stage_names m) (∅, []))) as H.
  { rewrite (for_each_stage_dep m) by done.
    apply (for_each_dep_spec m fuel); [apply visit_spec|done|].
    eapply Nat.le_lt_trans; [apply unvisited_bound|done]. }
  destruct (for_each_stage (visit fuel m) (stage_names m) (∅, []))
    as [[[V O]|e]|]; simpl in H; [| |done].
  - exists V, O. split; [done|]. split; [|done].
    destruct H as (new & HO & ND & Hn & _ & Ht & Hr & _); simpl in *.
    intros x. split; [|by apply Ht].
    intros Hx. apply Hr, Hn. set_solver.
  - destruct H as (s & d & Hs & Hsd & Hd & _). destruct Hd. by eapply Hreg.
Qed.

(** X7. Registering one more stage under a new name, in a manager whose
    dependencies are all registered and with dependencies of its own that
    are registered, appends the stage to the execution order and leaves
    the rest of the order as it was; the new pipeline is the old pipeline
    followed by the new stage, run on the old result. *)
Theorem execute_stages_append_stage m stage deps data context :
  all_deps_registered m →
  name stage ∉ stage_names m →
  (∀ d, depends_on (register_stage stage deps m).2 (name stage) d →
        d ∈ stage_names m) →
  (∃ order,
      get_execution_order m = Some (Returned order)
      ∧ get_execution_order (register_stage stage deps m).2
        = Some (Returned (order ++ [name stage])))
  ∧ execute_stages (register_stage stage deps m).2 data context
    = (λ run, run ≫= λ r, execute stage r context)
        <$> execute_stages m data context.
Proof.
  intros Hreg Hfresh Hdeps.
  set (om := (register_stage stage deps m).2) in *.
  assert (stage_names om = stage_names m ++ [name stage]) as Hnames.
  { unfold om, stage_names. simpl. by apply dict_set_names_fresh. }
  assert (∀ s, s ∈ stage_names m → deps_of om s = deps_of m s) as Hsame.
  { intros s Hs. apply register_stage_other_deps. by intros ->. }
  assert (length (stages om) = S (length (stages m))) as Hlen.
  { rewrite <-(length_fmap fst (stages om)). fold (stage_names om).
    rewrite Hnames, length_app. unfold stage_names. rewrite length_fmap.
    simpl. lia. }
  destruct (traversal_final_state m (S (S (length (stages m)))) Hreg
              ltac:(lia)) as (V & order & Hrun & HV & Horder).
  assert (get_execution_order om = Some (Returned (order ++ [name stage])))
    as Horder'.
  { unfold get_execution_order, get_execution_order_fuel.
    rewrite Hlen, Hnames, for_each_stage_app.
    rewrite (for_each_stage_agree _ (visit (S (S (length (stages m)))) m)).
    - rewrite Hrun. cbn [for_each_stage].
      rewrite visit_unfold, decide_False by (by rewrite HV).
      rewrite for_each_dep_visited; [done|].
      intros d Hd. specialize (Hdeps d Hd). split.
      + apply elem_of_union_r. by apply HV.
      + rewrite Hnames. set_solver.
    - intros s st Hs. apply visit_agree; [done| |done|done].
      intros s' Hs'. rewrite Hnames. set_solver. }
  split; [by exists order|].
  unfold execute_stages. rewrite Horder, Horder'. simpl. f_equal.
  rewrite run_stages_app. rewrite (run_stages_agree m om).
  - apply traced_bind_ext. intros r. rewrite run_stages_cons.
    unfold om. simpl. rewrite dict_get_set_eq.
    change (run_stages (register_stage stage deps m).2 [] ?x context)
      with (mret x : traced Data).
    apply traced_bind_ret.
  - intros s Hs. unfold om. simpl. apply dict_get_set_ne. intros ->.
    apply Hfresh.
    pose proof (get_execution_order_spec m) as Hspec. rewrite Horder in Hspec.
    destruct Hspec as (_ & Hin & _). by apply Hin.
Qed.
End ExtensionExtras.

Section RecursionLimitProps.
Context {Data Ctx Config : Type}.
Implicit Types (m : StageManager Data Ctx Config) (st : dfs_state).

Lemma get_execution_order_fuel_le m n n' r :
  n ≤ n' →
  get_execution_order_fuel n m = Some r →
  get_execution_order_fuel n' m = Some r.
Proof.
  intros Hle. assert (∃ k, n' = k + n) as [k ->] by (exists (n' - n); lia).
  clear Hle. induction k as [|k IH]; [done|]. intros H. specialize (IH H).
  unfold get_execution_order_fuel in *.
  destruct (for_each_stage (visit (k + n) m) (stage_names m) (∅, []))
    as [r'|] eqn:Hr; [|by destruct r].
  change (S k + n) with (S (k + n)).
  by rewrite (for_each_stage_mono _ _ (visit_mono m _) _ _ _ Hr).
Qed.

Lemma get_execution_order_within_cases m depth :
  (∃ r, get_execution_order_fuel depth m = Some r
        ∧ get_execution_order m = Some r
        ∧ get_execution_order_within depth m = r
        ∧ ∀ depth', depth ≤ depth' → get_execution_order_within depth' m = r)
  ∨ (get_execution_order_fuel depth m = None
     ∧ get_execution_order_within depth m = Raised RecursionError
     ∧ depth ≤ length (stages m)).
Proof.
  unfold get_execution_order_within.
  destruct (get_execution_order_fuel depth m) as [r|] eqn:Hrun.
  - left. exists r. split; [done|]. split; [|split; [done|]].
    + rewrite <-(get_execution_order_fuel_enough m (S (length (stages m)) + depth))
        by lia.
      apply (get_execution_order_fuel_le m depth); [lia|done].
    + intros depth' Hle.
      by rewrite (get_execution_order_fuel_le m depth depth' r Hle Hrun).
  - right. split; [done|]. split; [done|].
    destruct (decide (length (stages m) < depth)) as [Hlt|]; [|lia].
    rewrite (get_execution_order_fuel_enough m depth Hlt) in Hrun.
    by destruct (get_execution_order_terminates m).
Qed.

(** A chain of first prerequisites takes one frame for each of its
    stages. *)
Lemma visit_deep_chain m fuel :
  ∀ path s st,
    first_dependency_chain m path → head path = Some s →
    (∀ x, x ∈ path → x ∉ st.1) → fuel < length path →
    visit fuel m s st = None.
Proof.
  induction fuel as [|fuel IH]; intros path s [V O] [ND Hchain] Hs Hnew Hlen;
    [done|].
  destruct path as [|s' [|b path]]; simplify_eq/=; try lia.
  destruct (Hchain 0 s b eq_refl eq_refl) as [Hb Hhead].
  cbn [visit]. rewrite decide_False by (apply Hnew; left).
  destruct (deps_of m s) as [|d ds] eqn:Hdeps; simplify_eq/=.
  rewrite decide_True by done.
  rewrite (IH (b :: path) b); [done| |done| |simpl; lia].
  - split; [by apply NoDup_cons in ND as [_ ?]|].
    intros i x y Hx Hy. exact (Hchain (S i) x y Hx Hy).
  - intros x Hx. simpl. apply NoDup_cons in ND as [Hfresh _].
    specialize (Hnew x (list_elem_of_further _ _ _ Hx)). simpl in Hnew.
    set_solver.
Qed.

Lemma get_execution_order_deep_chain m depth path :
  head path = head (stage_names m) → first_dependency_chain m path →
  depth < length path →
  get_execution_order_within depth m = Raised RecursionError.
Proof.
  intros Hhead Hchain Hlen.
  unfold get_execution_order_within, get_execution_order_fuel.
  destruct path as [|s path]; [simpl in Hlen; lia|].
  destruct (stage_names m) as [|s' names]; simplify_eq/=.
  by rewrite (visit_deep_chain m depth (s' :: path) s' (∅, []))
    by (done || set_solver).
Qed.

(** *** What the traversal has visited when it returns *)






End RecursionLimitProps.

Section TraversalOrder.
Context {Data Ctx Config : Type}.
Implicit Types (m : StageManager Data Ctx Config) (st : dfs_state).





End TraversalOrder.

Section ShapeWithin.
Context {Data Ctx Config Data' Ctx' Config' : Type}.


End ShapeWithin.

Section Chains.
Context {Data Ctx Config : Type}.
Implicit Types (m : StageManager Data Ctx Config)
  (regs : list (PipelineStage Data Ctx Config * option (list string))).

Lemma deps_of_unregistered regs k :
  k ∉ stage_names (register_all regs new_manager) →
  deps_of (register_all regs new_manager) k = [].
Proof.
  intros Hk. unfold deps_of.
  destruct (dependencies (register_all regs new_manager) !! k)
    as [ds|] eqn:Hds; [|done].
  destruct (register_all_invariant regs new_manager new_manager_invariant)
    as (_ & _ & Hdeps).
  by destruct (Hdeps k ds Hds).
Qed.

(** A registration phase in which every name is registered once. *)
Lemma register_all_distinct regs :
  NoDup ((λ r, name r.1) <$> regs) →
  stage_names (register_all regs new_manager) = (λ r, name r.1) <$> regs
  ∧ ∀ i stage deps,
      regs !! i = Some (stage, deps) →
      deps_of (register_all regs new_manager) (name stage)
      = default [] (nonempty_deps deps).
Proof.
  induction regs as [|[stage' deps'] regs IH] using rev_ind; intros ND.
  - split; [done|]. intros i stage deps Hi. done.
  - rewrite fmap_app in ND. apply NoDup_app in ND as (ND & Hfresh & _).
    destruct (IH ND) as [Hnames Hdeps]. simpl in Hfresh.
    assert (name stage' ∉ stage_names (register_all regs new_manager))
      as Hnew.
    { rewrite Hnames. intros Hin. apply (Hfresh _ Hin). by left. }
    split.
    + rewrite register_all_snoc_names, decide_False by done.
      by rewrite Hnames, fmap_app.
    + intros i stage deps Hi. rewrite register_all_snoc.
      apply lookup_app_Some in Hi as [Hi|[_ Hi]].
      * assert (name stage ≠ name stage') as Hne.
        { intros Heq. apply Hnew. rewrite Hnames, <-Heq.
          apply list_elem_of_fmap. exists (stage, deps). split; [done|].
          apply list_elem_of_lookup. by exists i. }
        rewrite register_stage_other_deps by done. by apply (Hdeps i).
      * apply list_lookup_singleton_Some in Hi as [_ [= -> ->]].
        rewrite register_stage_deps.
        destruct (nonempty_deps deps) as [ds|]; [done|].
        by apply deps_of_unregistered.
Qed.

End Chains.

Lemma chain_name_inj : Inj (=) (=) chain_name.
Proof. intros i j [= Heq]. by apply (inj pretty). Qed.

Lemma chain_regs_names n :
  (λ r : PipelineStage nat unit nat * option (list string), name r.1)
    <$> chain_regs n
  = chain_name <$> seq 0 n.
Proof. unfold chain_regs. by rewrite <-list_fmap_compose. Qed.

Lemma chain_manager_names n :
  stage_names (chain_manager n) = chain_name <$> seq 0 n.
Proof.
  unfold chain_manager.
  rewrite (proj1 (register_all_distinct (chain_regs n)
                    ltac:(rewrite chain_regs_names;
                          apply (NoDup_fmap_2 _), NoDup_seq))).
  apply chain_regs_names.
Qed.

Lemma chain_manager_length n : length (stages (chain_manager n)) = n.
Proof.
  rewrite <-(length_fmap fst). change (length (stage_names (chain_manager n)) = n).
  by rewrite chain_manager_names, length_fmap, length_seq.
Qed.

Lemma chain_manager_deps n i :
  i < n →
  deps_of (chain_manager n) (chain_name i)
  = if decide (S i < n) then [chain_name (S i)] else [].
Proof.
  intros Hi.
  assert (NoDup ((λ r : PipelineStage nat unit nat * option (list string),
                    name r.1) <$> chain_regs n)) as ND.
  { rewrite chain_regs_names. apply (NoDup_fmap_2 _), NoDup_seq. }
  destruct (register_all_distinct (chain_regs n) ND) as [_ Hdeps].
  transitivity
    (default []
       (nonempty_deps
          (if decide (S i < n) then Some [chain_name (S i)] else None))).
  - apply (Hdeps i (demo_stage (chain_name i))).
    unfold chain_regs. by rewrite list_lookup_fmap, lookup_seq_lt by done.
  - by case_decide.
Qed.

Lemma chain_manager_registered n : all_deps_registered (chain_manager n).
Proof.
  intros s d Hs Hd. rewrite chain_manager_names in *.
  apply list_elem_of_fmap in Hs as (i & -> & Hi%elem_of_seq).
  unfold depends_on in Hd. rewrite chain_manager_deps in Hd by lia.
  case_decide; [|by apply elem_of_nil in Hd].
  apply list_elem_of_singleton in Hd as ->.
  apply list_elem_of_fmap. exists (S i). split; [done|].
  apply elem_of_seq. lia.
Qed.

Lemma chain_manager_path n s x :
  tc (depends_on (chain_manager n)) s x →
  ∀ i, s = chain_name i → i < n →
       ∃ j, i < j < n ∧ x = chain_name j.
Proof.
  assert (∀ i y, i < n → depends_on (chain_manager n) (chain_name i) y →
                 S i < n ∧ y = chain_name (S i)) as Hstep.
  { intros i y Hi Hd. unfold depends_on in Hd.
    rewrite chain_manager_deps in Hd by done.
    case_decide; [|by apply elem_of_nil in Hd].
    by apply list_elem_of_singleton in Hd as ->. }
  induction 1 as [s x Hd|s y x Hd _ IH]; intros i -> Hi.
  - destruct (Hstep i x Hi Hd) as [? ->]. exists (S i). split; [lia|done].
  - destruct (Hstep i y Hi Hd) as [? ->].
    destruct (IH (S i) eq_refl ltac:(done)) as (j & ? & ->).
    exists j. split; [lia|done].
Qed.

Lemma chain_manager_acyclic n : acyclic (chain_manager n).
Proof.
  intros s Hs Hcyc. rewrite chain_manager_names in Hs.
  apply list_elem_of_fmap in Hs as (i & -> & Hi%elem_of_seq).
  destruct (chain_manager_path n _ _ Hcyc i eq_refl ltac:(lia))
    as (j & Hj & Heq%chain_name_inj). lia.
Qed.

Lemma chain_manager_chain n :
  first_dependency_chain (chain_manager n) (chain_name <$> seq 0 n).
Proof.
  split; [apply (NoDup_fmap_2 _), NoDup_seq|].
  intros i a b Ha Hb. rewrite list_lookup_fmap in Ha, Hb.
  destruct (seq 0 n !! i) as [i'|] eqn:Hi; simplify_eq/=.
  destruct (seq 0 n !! S i) as [j'|] eqn:Hj; simplify_eq/=.
  apply lookup_seq in Hi as [-> Hi]. apply lookup_seq in Hj as [-> Hj].
  simpl. split.
  - rewrite chain_manager_names. apply list_elem_of_fmap. exists (S i).
    split; [done|]. apply elem_of_seq. lia.
  - rewrite chain_manager_deps by done. by rewrite decide_True by done.
Qed.

(** A chain of [n] stages needs room for [n] nested calls. *)
Lemma chain_manager_too_deep n depth :
  depth < n →
  get_execution_order_within depth (chain_manager n) = Raised RecursionError.
Proof.
  intros Hlt.
  apply (get_execution_order_deep_chain _ _ (chain_name <$> seq 0 n)).
  - by rewrite chain_manager_names.
  - apply chain_manager_chain.
  - by rewrite length_fmap, length_seq.
Qed.

(** * The execution order under the recursion limit *)

(** C10, as the code has it.  Whenever every declared prerequisite is
    registered, cycles or not, [get_execution_order] terminates: no
    stage is visited twice, so [visit] never nests deeper than the
    number of registered stages plus one.  When the interpreter's stack
    has room for the nesting the traversal needs, the call returns a list
    in which every registered stage name occurs exactly once, and
    nothing else, and more room gives the same list.  When it has not,
    the call raises [RecursionError] instead of returning: this happens
    only with room for no more nested calls than there are registered
    stages, and it does happen whenever the first registered stage
    starts a chain of first prerequisites longer than the room. *)
Theorem get_execution_order_lists_each_stage_once {Data Ctx Config : Type}
    (m : StageManager Data Ctx Config) (depth : nat) :
  all_deps_registered m →
  ((∃ order,
       get_execution_order_within depth m = Returned order
       ∧ NoDup order
       ∧ (∀ s, s ∈ order ↔ s ∈ stage_names m)
       ∧ (NoDup (stage_names m) → order ≡ₚ stage_names m)
       ∧ (∀ depth', depth ≤ depth' →
                    get_execution_order_within depth' m = Returned order))
   ∨ (get_execution_order_within depth m = Raised RecursionError
      ∧ depth ≤ length (stages m)))
  ∧ (∀ path,
       head path = head (stage_names m) → first_dependency_chain m path →
       depth < length path →
       get_execution_order_within depth m = Raised RecursionError).
Proof.
  intros Hreg. split.
  - destruct (get_execution_order_within_cases m depth)
      as [(r & _ & Hideal & Hrun & Hmore)|(_ & Hrun & Hle)]; [left|by right].
    destruct (get_execution_order_registered m Hreg)
      as (order & Horder & ND & Hsame & _).
    rewrite Horder in Hideal. injection Hideal as <-.
    exists order. split; [done|]. split; [done|]. split; [done|].
    split; [|done]. intros NDn. by apply NoDup_Permutation.
  - intros path. apply get_execution_order_deep_chain.
Qed.

Lemma get_execution_order_lists_each_stage_once_witness :
  all_deps_registered cyclic_manager
  ∧ ∃ order,
      get_execution_order_within 998 cyclic_manager = Returned order
      ∧ NoDup order
      ∧ (∀ s, s ∈ order ↔ s ∈ stage_names cyclic_manager).
Proof.
  assert (all_deps_registered cyclic_manager) as Hreg.
  { decide_by_computation. }
  split; [exact Hreg|].
  destruct (proj1 (get_execution_order_lists_each_stage_once cyclic_manager
                     998 Hreg))
    as [(order & Hrun & ND & Hsame & _)|[Hrun _]].
  - exists order. split; [exact Hrun|]. split; [exact ND|exact Hsame].
  - vm_compute in Hrun. discriminate Hrun.
Defined.

(** C10 as it is stated fails: a chain of 1000 registered stages, each
    needing the next, has no cycle and no unregistered prerequisite, and
    the order is not returned: under the default recursion limit of 1000
    there is room for fewer than 1000 nested calls of [visit], and the
    call raises [RecursionError].  A chain of three stages shows the
    threshold. *)
Lemma long_chain_exceeds_recursion_limit :
  all_deps_registered (chain_manager 1000)
  ∧ acyclic (chain_manager 1000)
  ∧ length (stages (chain_manager 1000)) = 1000
  ∧ get_execution_order_within 998 (chain_manager 1000)
    = Raised RecursionError
  ∧ stage_names (chain_manager 3) = ["s0"; "s1"; "s2"]
  ∧ deps_of (chain_manager 3) "s0" = ["s1"]
  ∧ deps_of (chain_manager 3) "s1" = ["s2"]
  ∧ deps_of (chain_manager 3) "s2" = []
  ∧ get_execution_order_within 2 (chain_manager 3) = Raised RecursionError
  ∧ get_execution_order_within 3 (chain_manager 3)
    = Returned ["s2"; "s1"; "s0"].
Proof.
  split; [apply chain_manager_registered|].
  split; [apply chain_manager_acyclic|].
  split; [apply chain_manager_length|].
  split; [apply chain_manager_too_deep; lia|].
  repeat split; by vm_compute.
Qed.

(** C1, as the code has it.  On a dependency graph with a cycle (all
    prerequisites registered) the computation of the order does not
    loop and never reports the cycle.  With room on the stack for the
    nesting the traversal needs (one more nested call than there are
    registered stages is always enough) it returns a list of the
    registered stages, each once, and that list cannot put every stage
    after all of its prerequisites; with less room the only failure is
    the interpreter's [RecursionError]. *)
Theorem cyclic_order_never_reports_cycle {Data Ctx Config : Type}
    (m : StageManager Data Ctx Config) (s : string) (depth : nat) :
  all_deps_registered m → s ∈ stage_names m → on_cycle m s →
  (∃ order,
      get_execution_order_within depth m = Returned order
      ∧ NoDup order
      ∧ (∀ x, x ∈ order ↔ x ∈ stage_names m)
      ∧ ¬ (∀ x d, x ∈ stage_names m → depends_on m x d → precedes order d x)
      ∧ (∀ depth', depth ≤ depth' →
                   get_execution_order_within depth' m = Returned order))
  ∨ (get_execution_order_within depth m = Raised RecursionError
     ∧ depth ≤ length (stages m)).
Proof.
  intros Hreg Hs Hcyc.
  destruct (get_execution_order_within_cases m depth)
    as [(r & _ & Hideal & Hrun & Hmore)|(_ & Hrun & Hle)]; [left|by right].
  destruct (get_execution_order_registered m Hreg)
    as (order & Horder & ND & Hsame & _).
  rewrite Horder in Hideal. injection Hideal as <-.
  exists order. split; [done|]. split; [done|]. split; [done|].
  split; [|done]. by eapply cycle_not_sorted.
Qed.

Lemma cyclic_order_never_reports_cycle_witness :
  all_deps_registered cyclic_manager
  ∧ "A" ∈ stage_names cyclic_manager
  ∧ on_cycle cyclic_manager "A"
  ∧ ∃ order,
      get_execution_order_within 998 cyclic_manager = Returned order
      ∧ NoDup order
      ∧ (∀ x, x ∈ order ↔ x ∈ stage_names cyclic_manager).
Proof.
  assert (all_deps_registered cyclic_manager) as Hreg.
  { decide_by_computation. }
  assert ("A" ∈ stage_names cyclic_manager) as HA.
  { decide_by_computation. }
  split; [exact Hreg|]. split; [exact HA|]. split; [exact cyclic_manager_cycle|].
  destruct (cyclic_order_never_reports_cycle cyclic_manager "A" 998 Hreg HA
              cyclic_manager_cycle)
    as [(order & Hrun & ND & Hsame & _)|[Hrun _]].
  - exists order. split; [exact Hrun|]. split; [exact ND|exact Hsame].
  - vm_compute in Hrun. discriminate Hrun.
Defined.




(** * Further properties of batches and checkpoints *)

Section BatchExtras.
Context {Input Output : Type}.
Variable process_text : Input → outcome Output.
Variable first_to_raise : list exn → nat.
Implicit Types (texts batch : list Input) (outputs results : list Output)
  (fs : gmap string (list Output)) (dir : option string).

(** X8. [process_batch] at the degenerate sizes: a batch size of zero
    raises the [ValueError] of [range], a negative batch size processes
    nothing and returns the empty list, whatever the texts, and an empty
    list of texts returns the empty list; no checkpoint is written in any
    of the three cases. *)
Theorem process_batch_degenerate_sizes dir texts (B : Z) (parallel : bool) fs :
  (B = 0%Z →
   process_batch process_text first_to_raise dir texts B parallel fs
   = (Raised (ValueError "range() arg 3 must not be zero"), fs))
  ∧ ((B < 0)%Z →
     process_batch process_text first_to_raise dir texts B parallel fs
     = (Returned [], fs))
  ∧ (B ≠ 0%Z →
     process_batch process_text first_to_raise dir [] B parallel fs
     = (Returned [], fs)).
Proof.
  unfold process_batch, make_batches, range. split; [|split].
  - intros ->. by rewrite decide_True.
  - intros HB. rewrite decide_False by lia. by rewrite decide_True.
  - intros HB. rewrite decide_False by done. by case_decide.
Qed.

Lemma batch_loop_no_checkpoint (parallel : bool) dir batches idx results fs :
  checkpointing dir = false →
  (batch_loop process_text first_to_raise parallel dir idx batches results
     fs).2 = fs.
Proof.
  intros Hck. revert idx results.
  induction batches as [|batch batches IH]; intros idx results; simpl; [done|].
  destruct (if parallel then _ else _); [|done]. rewrite Hck. apply IH.
Qed.

(** X9. Without a checkpoint directory ([None] or the empty string)
    [process_batch] leaves the file system as it found it, whether it
    returns or raises. *)
Theorem process_batch_without_checkpoint_dir dir texts (B : Z)
    (parallel : bool) fs :
  checkpointing dir = false →
  (process_batch process_text first_to_raise dir texts B parallel fs).2 = fs.
Proof.
  intros Hck. unfold process_batch.
  destruct (make_batches texts B); [|done]. by apply batch_loop_no_checkpoint.
Qed.

Lemma batch_loop_modes_agree dir batches :
  Forall (λ batch, ∃ outputs, all_succeed process_text batch outputs) batches →
  ∀ idx results fs,
    batch_loop process_text first_to_raise true dir idx batches results fs
    = batch_loop process_text first_to_raise false dir idx batches results fs.
Proof.
  induction 1 as [|batch batches [outputs Hb] _ IH]; intros idx results fs;
    [done|].
  cbn [batch_loop].
  rewrite (batch_all process_text first_to_raise true _ _ Hb).
  rewrite (batch_all process_text first_to_raise false _ _ Hb).
  apply IH.
Qed.

(** X10. When every text is processed successfully, the parallel and the
    sequential mode of [process_batch] return the same results and write
    the same checkpoints. *)
Theorem process_batch_modes_agree dir texts outputs (B : Z) fs :
  all_succeed process_text texts outputs →
  process_batch process_text first_to_raise dir texts B true fs
  = process_batch process_text first_to_raise dir texts B false fs.
Proof.
  intros Hall. unfold process_batch, make_batches.
  destruct (range (length texts) B) as [starts|e]; [|done].
  apply batch_loop_modes_agree. apply Forall_forall.
  intros batch (i & -> & _)%list_elem_of_fmap.
  exists (slice outputs i (i + Z.to_nat B)).
  unfold slice. by apply Forall2_take, Forall2_drop.
Qed.
End BatchExtras.

Section BatchFailureExtras.
Context {Input Output : Type}.
Variable process_text : Input → outcome Output.
Variable first_to_raise : list exn → nat.
Implicit Types (texts batch : list Input) (outputs results : list Output)
  (fs : gmap string (list Output)) (dir : option string).

Lemma sequential_first_failure pre text post outputs results e :
  all_succeed process_text pre outputs →
  process_text text = Raised e →
  sequential process_text (pre ++ text :: post) results = Raised e.
Proof.
  intros Hpre He. revert results.
  induction Hpre as [|x y pre outputs Hxy _ IH]; intros results; simpl.
  - by rewrite He.
  - rewrite Hxy. apply IH.
Qed.

Lemma batch_loop_sequential_first_failure dir batches :
  ∀ pre text post outputs e idx results fs,
    concat batches = pre ++ text :: post →
    all_succeed process_text pre outputs →
    process_text text = Raised e →
    (batch_loop process_text first_to_raise false dir idx batches results
       fs).1 = Raised e.
Proof.
  induction batches as [|batch batches IH];
    intros pre text post outputs e idx results fs Hcat Hpre He;
    simpl in Hcat.
  - by destruct pre.
  - cbn [batch_loop].
    apply app_eq_inv in Hcat as [(l & -> & Hrest)|(l & -> & Hrest)].
    + destruct l as [|x l].
      * rewrite app_nil_r. simpl in Hrest.
        rewrite (sequential_all process_text _ _ _ Hpre). simpl.
        by apply (IH [] text post [] e); [|constructor|].
      * simpl in Hrest. injection Hrest as -> Hrest.
        by rewrite (sequential_first_failure _ _ _ _ _ _ Hpre He).
    + unfold all_succeed in Hpre.
      apply Forall2_app_inv_l in Hpre as (o1 & o2 & Ho1 & Ho2 & ->).
      rewrite (sequential_all process_text _ _ _ Ho1). simpl.
      by eapply IH.
Qed.

(** X11. In sequential mode [process_batch] raises the exception of the
    first text that fails: when all texts before one are processed
    successfully and that one raises, the run raises its exception,
    whatever follows it. *)
Theorem process_batch_sequential_first_failure dir pre text post outputs e
    (B : Z) fs :
  (0 < B)%Z →
  all_succeed process_text pre outputs →
  process_text text = Raised e →
  (process_batch process_text first_to_raise dir (pre ++ text :: post) B
     false fs).1 = Raised e.
Proof.
  intros HB Hpre He. unfold process_batch.
  rewrite make_batches_positive by done.
  apply (batch_loop_sequential_first_failure dir _ pre text post outputs);
    [|done..].
  generalize (pre ++ text :: post). intros texts.
  apply (chunks_concat (length texts) 0); [lia|nia].
Qed.

Lemma batch_loop_prefix (parallel : bool) dir good (outss : list (list Output))
    rest :
  Forall2 (all_succeed process_text) good outss →
  ∀ idx results fs,
    batch_loop process_text first_to_raise parallel dir idx (good ++ rest)
      results fs
    = batch_loop process_text first_to_raise parallel dir
        (idx + length good) rest (results ++ concat outss)
        (batch_loop process_text first_to_raise parallel dir idx good
           results fs).2.
Proof.
  induction 1 as [|batch outs good outss Hb _ IH]; intros idx results fs.
  - simpl. by rewrite Nat.add_0_r, app_nil_r.
  - cbn [batch_loop app]. rewrite (batch_all _ _ _ _ _ Hb).
    rewrite IH. simpl. rewrite <-(assoc_L (++)).
    replace (S (idx + length good)) with (idx + S (length good)) by lia.
    done.
Qed.

(** X12. When the batches before batch [k] are processed successfully and
    a text of batch [k] fails, [process_batch] raises the exception of a
    text of that batch; the checkpoints of the earlier batches stay on
    disk, checkpoint [i] holding the results of batches [0..i], and no
    other file is written: none for batch [k] or for a later one. *)
Theorem process_batch_keeps_earlier_checkpoints dir texts (B : Z)
    (parallel : bool) fs batches k bad (outss : list (list Output)) :
  make_batches texts B = Returned batches →
  Forall2 (all_succeed process_text) (take k batches) outss →
  batches !! k = Some bad →
  (∃ text, text ∈ bad ∧ fails process_text text) →
  ∃ e fs',
    process_batch process_text first_to_raise dir texts B parallel fs
    = (Raised e, fs')
    ∧ (∃ text, text ∈ bad ∧ process_text text = Raised e)
    ∧ (checkpointing dir = false → fs' = fs)
    ∧ (checkpointing dir = true →
       (∀ i, i < k →
             _load_checkpoint dir (Z.of_nat i) fs'
             = Some (concat (take (S i) outss)))
       ∧ (∀ p, (∀ i, i < k → p ≠ checkpoint_path dir (Z.of_nat i)) →
               fs' !! p = fs !! p)).
Proof.
  intros Hmake Hgood Hk (text & Htext & Hfail). unfold process_batch.
  rewrite Hmake.
  pose proof (take_drop_middle batches k bad Hk) as Hsplit.
  rewrite <-Hsplit, (batch_loop_prefix parallel dir _ outss _ Hgood).
  destruct (batch_loop_all process_text first_to_raise parallel dir
              (take k batches) outss Hgood 0 [] fs)
    as (fs' & Hrun & Hoff & Hon).
  rewrite Hrun. cbn [snd batch_loop].
  destruct (if parallel then _ else _) as [outs|e] eqn:Hb.
  - destruct (batch_outcome_returned process_text first_to_raise _ _ _ Hb
                text Htext Hfail).
  - exists e, fs'. split; [done|].
    split; [by eapply batch_outcome_raised|]. split; [done|].
    intros Hck. destruct (Hon Hck) as [Hload Hother].
    assert (length (take k batches) = k) as Hlen.
    { apply length_take_le. apply lookup_lt_Some in Hk. lia. }
    rewrite Hlen in *. split.
    + intros i Hi. exact (Hload i Hi).
    + done.
Qed.
End BatchFailureExtras.

Section CheckpointsOfCompletedBatches.
Context {Input Output : Type}.
Variable process_text : Input → outcome Output.
Variable first_to_raise : list exn → nat.
Implicit Types (texts batch : list Input) (outputs results : list Output)
  (fs : gmap string (list Output)) (dir : option string).

(** The loop writes no file but the checkpoints of its own batches. *)
Lemma batch_loop_frame (parallel : bool) dir batches :
  ∀ idx results fs p,
    (∀ k, k < length batches →
          p ≠ checkpoint_path dir (Z.of_nat (idx + k))) →
    (batch_loop process_text first_to_raise parallel dir idx batches
       results fs).2 !! p = fs !! p.
Proof.
  induction batches as [|batch batches IH]; intros idx results fs p Hp;
    [done|].
  cbn [batch_loop]. destruct (if parallel then _ else _) as [outs|e]; [|done].
  rewrite IH.
  - destruct (checkpointing dir); [|done]. unfold _save_checkpoint.
    apply lookup_insert_ne. specialize (Hp 0 ltac:(simpl; lia)).
    rewrite Nat.add_0_r in Hp. done.
  - intros k Hk. replace (S idx + k) with (idx + S k) by lia.
    apply Hp. simpl. lia.
Qed.

Lemma all_succeed_concat (batches : list (list Input))
    (outss : list (list Output)) :
  Forall2 (all_succeed process_text) batches outss →
  all_succeed process_text (concat batches) (concat outss).
Proof.
  induction 1 as [|batch outs batches outss Hb _ IH]; [constructor|].
  simpl. by apply Forall2_app.
Qed.

(** The checkpoints of the batches a run completes, whether the run
    goes on to return or to raise. *)
Lemma process_batch_completed_checkpoints dir texts (B : Z)
    (parallel : bool) fs batches k (outss : list (list Output)) :
  checkpointing dir = true →
  make_batches texts B = Returned batches →
  k ≤ length batches →
  Forall2 (all_succeed process_text) (take k batches) outss →
  ∀ i, i < k →
       _load_checkpoint dir (Z.of_nat i)
         (process_batch process_text first_to_raise dir texts B parallel
            fs).2
       = Some (concat (take (S i) outss)).
Proof.
  intros Hck Hmake Hk Hgood i Hi. unfold process_batch. rewrite Hmake.
  rewrite <-(take_drop k batches) at 1.
  rewrite (batch_loop_prefix process_text first_to_raise parallel dir _
             outss _ Hgood).
  unfold _load_checkpoint. rewrite batch_loop_frame.
  - destruct (batch_loop_all process_text first_to_raise parallel dir
                (take k batches) outss Hgood 0 [] fs)
      as (fs' & Hrun & _ & Hon).
    destruct (Hon Hck) as [Hload _]. rewrite Hrun. simpl.
    rewrite length_take_le in Hload by done. exact (Hload i Hi).
  - intros j _ Heq%checkpoint_path_inj.
    rewrite length_take_le in Heq by done. lia.
Qed.

(** A run that completes exactly [k] batches writes no other file than
    their checkpoints. *)
Lemma process_batch_other_files dir texts (B : Z) (parallel : bool) fs
    batches k (outss : list (list Output)) :
  make_batches texts B = Returned batches →
  Forall2 (all_succeed process_text) (take k batches) outss →
  (k = length batches
   ∨ ∃ bad text, batches !! k = Some bad ∧ text ∈ bad
                 ∧ fails process_text text) →
  ∀ j : Z, ¬ (0 ≤ j < Z.of_nat k)%Z →
    _load_checkpoint dir j
      (process_batch process_text first_to_raise dir texts B parallel fs).2
    = _load_checkpoint dir j fs.
Proof.
  intros Hmake Hgood Hlast j Hj. unfold process_batch, _load_checkpoint.
  rewrite Hmake.
  destruct (batch_loop_all process_text first_to_raise parallel dir
              (take k batches) outss Hgood 0 [] fs)
    as (fs' & Hrun & Hoff & Hon).
  assert (fs' !! checkpoint_path dir j = fs !! checkpoint_path dir j)
    as Hsame.
  { destruct (checkpointing dir) eqn:Hck; [|by rewrite Hoff].
    destruct (Hon eq_refl) as [_ Hother]. apply Hother.
    intros i Hi Heq%checkpoint_path_inj.
    rewrite length_take in Hi. lia. }
  destruct Hlast as [->|(bad & text & Hk & Htext & Hfail)].
  - rewrite take_ge in Hrun by done. by rewrite Hrun.
  - pose proof (take_drop_middle batches k bad Hk) as Hsplit.
    rewrite <-Hsplit.
    rewrite (batch_loop_prefix process_text first_to_raise parallel dir _
               outss _ Hgood).
    rewrite Hrun. cbn [snd batch_loop].
    destruct (if parallel then _ else _) as [outs|e] eqn:Hb; [|done].
    destruct (batch_outcome_returned process_text first_to_raise _ _ _ Hb
                text Htext Hfail).
Qed.

End CheckpointsOfCompletedBatches.

(** C8, as the code has it.  After a run with checkpointing on, whether
    it returns or raises, loading the checkpoint of a batch [i] that
    the run completed (the batches up to [i] were processed
    successfully) gives the results accumulated up to and including that
    batch, that is the results of the batches [0..i] in order, not only
    those of batch [i]; and when the run completes exactly [k] batches,
    loading any index but theirs gives what was there before the run, so
    nothing when no checkpoint was ever written for it. *)
Theorem checkpoint_load_cumulative {Input Output : Type}
    (process_text : Input → outcome Output)
    (first_to_raise : list exn → nat) (dir : option string)
    (texts : list Input) (B : Z) (parallel : bool)
    (fs : gmap string (list Output)) (batches : list (list Input))
    (k : nat) (outss : list (list Output)) :
  checkpointing dir = true →
  make_batches texts B = Returned batches →
  k ≤ length batches →
  Forall2 (all_succeed process_text) (take k batches) outss →
  (∀ i, i < k →
        _load_checkpoint dir (Z.of_nat i)
          (process_batch process_text first_to_raise dir texts B parallel
             fs).2
        = Some (concat (take (S i) outss))
        ∧ all_succeed process_text
            (concat (take (S i) batches)) (concat (take (S i) outss)))
  ∧ ((k = length batches
      ∨ ∃ bad text, batches !! k = Some bad ∧ text ∈ bad
                    ∧ fails process_text text) →
     ∀ j : Z, ¬ (0 ≤ j < Z.of_nat k)%Z →
       _load_checkpoint dir j
         (process_batch process_text first_to_raise dir texts B parallel
            fs).2
       = _load_checkpoint dir j fs
       ∧ (fs !! checkpoint_path dir j = None →
          _load_checkpoint dir j
            (process_batch process_text first_to_raise dir texts B
               parallel fs).2
          = None)).
Proof.
  intros Hck Hmake Hk Hgood. split.
  - intros i Hi. split.
    + by apply (process_batch_completed_checkpoints _ _ _ _ _ _ _ batches k).
    + apply all_succeed_concat.
      replace (take (S i) batches) with (take (S i) (take k batches))
        by (rewrite take_take; f_equal; lia).
      by apply Forall2_take.
  - intros Hlast j Hj.
    pose proof (process_batch_other_files process_text first_to_raise dir
                  texts B parallel fs batches k outss Hmake Hgood Hlast j Hj)
      as Hsame.
    split; [done|]. intros Hnone. by rewrite Hsame.
Qed.

Lemma checkpoint_load_cumulative_witness :
  checkpointing (Some "ck") = true
  ∧ make_batches [2; 3; 5; 6; 1; 4] 2 = Returned [[2; 3]; [5; 6]; [1; 4]]
  ∧ 2 ≤ length [[2; 3]; [5; 6]; [1; 4]]
  ∧ Forall2 (all_succeed fails_on_one) (take 2 [[2; 3]; [5; 6]; [1; 4]])
      [[20; 30]; [50; 60]]
  ∧ [[2; 3]; [5; 6]; [1; 4]] !! 2 = Some [1; 4]
  ∧ fails fails_on_one 1
  ∧ (process_batch fails_on_one first_in_order (Some "ck")
       [2; 3; 5; 6; 1; 4] 2 true ∅).1
    = Raised (ValueError "bad text")
  ∧ _load_checkpoint (Some "ck") 0
      (process_batch fails_on_one first_in_order (Some "ck")
         [2; 3; 5; 6; 1; 4] 2 true ∅).2
    = Some [20; 30]
  ∧ _load_checkpoint (Some "ck") 1
      (process_batch fails_on_one first_in_order (Some "ck")
         [2; 3; 5; 6; 1; 4] 2 true ∅).2
    = Some [20; 30; 50; 60]
  ∧ _load_checkpoint (Some "ck") 2
      (process_batch fails_on_one first_in_order (Some "ck")
         [2; 3; 5; 6; 1; 4] 2 true ∅).2
    = None.
Proof.
  assert (Forall2 (all_succeed fails_on_one)
            (take 2 [[2; 3]; [5; 6]; [1; 4]]) [[20; 30]; [50; 60]])
    as Hgood.
  { repeat constructor. }
  assert (fails fails_on_one 1) as Hfail.
  { by exists (ValueError "bad text"). }
  destruct (checkpoint_load_cumulative fails_on_one first_in_order
              (Some "ck") [2; 3; 5; 6; 1; 4] 2 true ∅
              [[2; 3]; [5; 6]; [1; 4]] 2 [[20; 30]; [50; 60]]
              eq_refl eq_refl (le_S _ _ (le_n 2)) Hgood)
    as [Hload Hother].
  split; [reflexivity|]. split; [reflexivity|].
  split; [exact (le_S _ _ (le_n 2))|]. split; [exact Hgood|].
  split; [reflexivity|]. split; [exact Hfail|]. split; [reflexivity|].
  split; [exact (proj1 (Hload 0 ltac:(lia)))|].
  split; [exact (proj1 (Hload 1 ltac:(lia)))|].
  refine (proj2 (Hother _ 2%Z ltac:(lia)) eq_refl).
  right. exists [1; 4], 1. split; [reflexivity|]. split; [constructor|].
  exact Hfail.
Defined.

Section CheckpointExtras.
Context {Input Output : Type}.
Variable process_text : Input → outcome Output.
Variable first_to_raise : list exn → nat.
Implicit Types (texts batch : list Input) (outputs results : list Output)
  (fs : gmap string (list Output)) (dir : option string).

(** X13. Checkpoints round-trip: loading the checkpoint of a batch after
    saving it gives back the saved results, saving the checkpoint of one
    batch does not change what is loaded for another index, and a second
    save for the same index replaces the first. *)
Theorem checkpoint_save_load dir (i j : Z) results results' fs :
  _load_checkpoint dir i (_save_checkpoint dir i results fs) = Some results
  ∧ (i ≠ j →
     _load_checkpoint dir j (_save_checkpoint dir i results fs)
     = _load_checkpoint dir j fs)
  ∧ _save_checkpoint dir i results' (_save_checkpoint dir i results fs)
    = _save_checkpoint dir i results' fs.
Proof.
  unfold _load_checkpoint, _save_checkpoint. split; [|split].
  - apply lookup_insert_eq.
  - intros Hij. apply lookup_insert_ne. by intros ?%checkpoint_path_inj.
  - apply insert_insert_eq.
Qed.

(** X14. [process_batch] does not resume from checkpoints: a second run
    on the same texts, started from the file system the first run left,
    processes all texts again, returns the same results and leaves the
    checkpoints as they were, in either mode. *)
Theorem process_batch_rerun dir texts outputs (B : Z)
    (parallel parallel' : bool) fs :
  (0 < B)%Z → all_succeed process_text texts outputs →
  ∃ fs1,
    process_batch process_text first_to_raise dir texts B parallel fs
    = (Returned outputs, fs1)
    ∧ process_batch process_text first_to_raise dir texts B parallel' fs1
      = (Returned outputs, fs1).
Proof.
  intros HB Hall.
  destruct (process_batch_all process_text first_to_raise dir texts outputs
              B parallel fs HB Hall) as (fs1 & Hrun1 & Hoff1 & Hon1).
  destruct (process_batch_all process_text first_to_raise dir texts outputs
              B parallel' fs1 HB Hall) as (fs2 & Hrun2 & Hoff2 & Hon2).
  exists fs1. split; [done|]. rewrite Hrun2. f_equal.
  destruct (checkpointing dir) eqn:Hck; [|by apply Hoff2].
  destruct (Hon1 eq_refl) as [Hload1 _].
  destruct (Hon2 eq_refl) as [Hload2 Hother2].
  apply map_eq. intros p.
  set (n := length (chunks_from (length texts) 0 (Z.to_nat B) texts)) in *.
  destruct (decide (Exists (λ k, p = checkpoint_path dir (Z.of_nat k))
                      (seq 0 n))) as [Hex|Hex].
  - apply Exists_exists in Hex as (k & Hk & ->).
    apply elem_of_seq in Hk as [_ Hk].
    specialize (Hload1 k ltac:(lia)). specialize (Hload2 k ltac:(lia)).
    unfold _load_checkpoint in *. by rewrite Hload1, Hload2.
  - apply Hother2. intros k Hk ->. apply Hex, Exists_exists.
    exists k. split; [|done]. apply elem_of_seq. lia.
Qed.

(** X15. After a run of [process_batch] that returns, with checkpoints
    enabled and at least one text, the checkpoint of the last batch holds
    exactly the list the run returned. *)
Theorem last_checkpoint_is_complete dir texts outputs (B : Z)
    (parallel : bool) fs :
  (0 < B)%Z → checkpointing dir = true → texts ≠ [] →
  all_succeed process_text texts outputs →
  ∃ batches fs',
    make_batches texts B = Returned batches
    ∧ process_batch process_text first_to_raise dir texts B parallel fs
      = (Returned outputs, fs')
    ∧ 0 < length batches
    ∧ _load_checkpoint dir (Z.of_nat (length batches) - 1) fs'
      = Some outputs.
Proof.
  intros HB Hck Hne Hall.
  destruct (process_batch_all process_text first_to_raise dir texts outputs
              B parallel fs HB Hall) as (fs' & Hrun & _ & Hon).
  destruct (Hon Hck) as [Hload _].
  exists (chunks_from (length texts) 0 (Z.to_nat B) texts), fs'.
  split; [by apply make_batches_positive|]. split; [done|].
  unfold chunks_from in *. rewrite length_map in *.
  destruct (range_from_length (length texts) 0 (length texts) (Z.to_nat B))
    as [Hup _]; [lia|nia|].
  set (n := length (range_from (length texts) 0 (length texts) (Z.to_nat B)))
    in *.
  assert (0 < n) as Hn.
  { destruct n; [|lia]. destruct texts; [done|]. simpl in Hup. lia. }
  split; [done|].
  replace (Z.of_nat n - 1)%Z with (Z.of_nat (n - 1)) by lia.
  rewrite Hload by lia. f_equal. apply take_ge.
  rewrite <-(all_succeed_length _ _ _ Hall).
  replace (S (n - 1)) with n by lia. simpl in Hup. lia.
Qed.
End CheckpointExtras.

(** * The error handler *)

Section ErrorHandlerProps.

Lemma sum_dict_set_fresh k v (d : list (string * nat)) :
  dict_get k d = None → sum_list (dict_set k v d).*2 = sum_list d.*2 + v.
Proof.
  induction d as [|[k' v'] d IH]; csimpl; [lia|].
  case_decide; [done|]. intros Hk. csimpl. rewrite IH by done. lia.
Qed.

Lemma sum_dict_set_present k v c (d : list (string * nat)) :
  dict_get k d = Some c →
  sum_list (dict_set k v d).*2 + c = sum_list d.*2 + v.
Proof.
  induction d as [|[k' v'] d IH]; csimpl; [done|].
  case_decide.
  - intros [= ->]. csimpl. lia.
  - intros Hk. csimpl. specialize (IH Hk). lia.
Qed.

Lemma increment_count k k' (d : list (string * nat)) :
  default 0 (dict_get k' (_increment_error_count k d))
  = default 0 (dict_get k' d) + (if decide (k' = k) then 1 else 0).
Proof.
  unfold _increment_error_count.
  destruct (decide (k' = k)) as [->|Hne].
  - rewrite dict_get_set_eq. simpl.
    destruct (dict_get k d) eqn:Hk; simpl.
    + rewrite Hk. simpl. lia.
    + rewrite dict_get_set_eq. simpl. lia.
  - rewrite dict_get_set_ne by done.
    destruct (dict_get k d); [lia|]. rewrite dict_get_set_ne by done. lia.
Qed.

Lemma increment_total k (d : list (string * nat)) :
  sum_list (_increment_error_count k d).*2 = S (sum_list d.*2).
Proof.
  unfold _increment_error_count.
  destruct (dict_get k d) as [c|] eqn:Hk; simpl.
  - rewrite Hk. simpl.
    pose proof (sum_dict_set_present k (c + 1) c d Hk). lia.
  - rewrite dict_get_set_eq. simpl.
    pose proof (sum_dict_set_present k 1 0 (dict_set k 0 d)
                  (dict_get_set_eq k 0 d)) as H.
    rewrite (sum_dict_set_fresh k 0 d Hk) in H. lia.
Qed.

Lemma increment_keys k k' (d : list (string * nat)) :
  k' ∈ (_increment_error_count k d).*1 ↔ k' = k ∨ k' ∈ d.*1.
Proof.
  unfold _increment_error_count.
  destruct (dict_get k d) as [c|] eqn:Hk.
  - rewrite dict_set_names_present by (by eapply dict_get_Some_names).
    split; [by right|]. intros [->|?]; [by eapply dict_get_Some_names|done].
  - assert (k ∉ d.*1) as Hfresh.
    { intros [v Hv]%dict_get_is_Some. congruence. }
    rewrite dict_set_names_present.
    + rewrite dict_set_names_fresh by done. set_solver.
    + rewrite dict_set_names_fresh by done. set_solver.
Qed.

Lemma handle_call_counts {Time V} (c : handler_call Time V) counts :
  (handle_call c counts).1.1
  = _increment_error_count (exn_class (call_error c)) counts.
Proof. unfold handle_call. by destruct (call_method c). Qed.

(** X16. After any sequence of calls of the three handlers of
    [ErrorHandler], started from empty counts, [total_errors] is the number
    of calls, the count of every exception class is the number of calls
    that were given an exception of that class, and the classes counted
    are exactly the classes that occurred. *)
Theorem error_counts_are_exact {Time V} (calls : list (handler_call Time V)) :
  total_errors (get_error_statistics (counts_after calls []))
  = length calls
  ∧ ∀ cls,
      default 0 (dict_get cls (counts_after calls []))
      = length (filter (λ c, exn_class (call_error c) = cls) calls)
      ∧ (cls ∈ (counts_after calls []).*1
         ↔ cls ∈ (exn_class ∘ call_error) <$> calls).
Proof.
  unfold counts_after.
  induction calls as [|c calls IH] using rev_ind.
  - split; [done|]. intros cls. split; [done|]. simpl. set_solver.
  - rewrite foldl_app. simpl. rewrite handle_call_counts.
    destruct IH as [IHt IHc]. split.
    + simpl in *. rewrite increment_total, IHt, length_app. simpl. lia.
    + intros cls. destruct (IHc cls) as [IH1 IH2]. split.
      * rewrite increment_count, IH1, filter_app, length_app. f_equal.
        rewrite filter_cons, filter_nil.
        repeat case_decide; simplify_eq; done.
      * rewrite increment_keys, IH2, fmap_app. set_solver.
Qed.

Lemma max_by_count_spec best items :
  let top := max_by_count best items in
  top ∈ best :: items
  ∧ (∀ item, item ∈ best :: items → item.2 ≤ top.2)
  ∧ ∃ i, (best :: items) !! i = Some top
         ∧ ∀ j item, j < i → (best :: items) !! j = Some item →
                     item.2 < top.2.
Proof.
  revert best. induction items as [|x items IH]; intros best; simpl.
  - split; [set_solver|]. split.
    + intros item ->%list_elem_of_singleton. done.
    + exists 0. split; [done|]. intros j item Hj. lia.
  - destruct (IH (if decide (best.2 < x.2) then x else best))
      as (Hin & Hmax & i & Hi & Hfirst).
    set (top := max_by_count (if decide (best.2 < x.2) then x else best) items)
      in *.
    case_decide as Hlt.
    + split; [set_solver|]. split.
      * intros item [->|Hitem]%elem_of_cons; [|by apply Hmax].
        specialize (Hmax x ltac:(set_solver)). lia.
      * exists (S i). split; [done|]. intros [|j] item Hj Hitem.
        -- simpl in Hitem. injection Hitem as <-.
           specialize (Hmax x ltac:(set_solver)). lia.
        -- simpl in Hitem. apply (Hfirst j item); [lia|done].
    + split; [set_solver|]. split.
      * intros item [->|[->|Hitem]%elem_of_cons]%elem_of_cons.
        -- apply Hmax. set_solver.
        -- specialize (Hmax best ltac:(set_solver)). lia.
        -- apply Hmax. set_solver.
      * destruct i as [|i].
        -- exists 0. split; [done|]. intros j item Hj. lia.
        -- exists (S (S i)). split; [done|]. intros [|[|j]] item Hj Hitem.
           ++ simpl in Hitem. injection Hitem as <-.
              apply (Hfirst 0 best); [lia|done].
           ++ simpl in Hitem. injection Hitem as <-.
              assert (best.2 < top.2) by (apply (Hfirst 0 best); [lia|done]).
              lia.
           ++ simpl in Hitem. apply (Hfirst (S j) item); [lia|done].
Qed.

(** X17. [most_common] of [get_error_statistics] is [None] exactly for
    empty counts; otherwise it is an entry of the counts with the largest
    count, and among several with the largest count the one whose class
    was counted first. *)
Theorem most_common_is_first_maximum (error_counts : list (string * nat)) :
  match most_common (get_error_statistics error_counts) with
  | None => error_counts = []
  | Some top =>
      ∃ i, error_counts !! i = Some top
           ∧ (∀ item, item ∈ error_counts → item.2 ≤ top.2)
           ∧ ∀ j item, j < i → error_counts !! j = Some item →
                       item.2 < top.2
  end.
Proof.
  destruct error_counts as [|best items]; [done|]. simpl.
  destruct (max_by_count_spec best items) as (_ & Hmax & i & Hi & Hfirst).
  exists i. done.
Qed.
End ErrorHandlerProps.

(** * The optimizer *)

Section OptimizerProps.
Context {V Time : Type}.
Variable earlier : Time → Time → bool.
Variable expired : Time → Time → Z → bool.
Implicit Types (cache : list (string * cache_entry V Time)).

Lemma dict_del_names {W} k (d : list (string * W)) :
  ∀ x, x ∈ (dict_del k d).*1 → x ∈ d.*1.
Proof.
  induction d as [|[k' v'] d IH]; intros x; simpl; [done|].
  case_decide; [set_solver|]. simpl. set_solver.
Qed.

Lemma dict_del_NoDup {W} k (d : list (string * W)) :
  NoDup d.*1 → NoDup (dict_del k d).*1 ∧ k ∉ (dict_del k d).*1.
Proof.
  induction d as [|[k' v'] d IH]; simpl; [by intros; split; [|set_solver]|].
  intros [Hk' ND]%NoDup_cons. case_decide as Hk.
  - subst. done.
  - destruct (IH ND) as [ND' Hnot]. simpl. split.
    + apply NoDup_cons. split; [|done]. intros ?%dict_del_names. done.
    + set_solver.
Qed.

Lemma dict_del_length {W} k (d : list (string * W)) :
  k ∈ d.*1 → S (length (dict_del k d)) = length d.
Proof.
  induction d as [|[k' v'] d IH]; simpl; [by intros ?%elem_of_nil|].
  case_decide; [done|]. intros [?|?]%elem_of_cons; [done|].
  simpl. by rewrite IH.
Qed.

Lemma dict_del_get_ne {W} k k' (d : list (string * W)) :
  k' ≠ k → dict_get k' (dict_del k d) = dict_get k' d.
Proof.
  intros Hne. induction d as [|[k0 v0] d IH]; simpl; [done|].
  case_decide as Hk.
  - subst k0. by rewrite decide_False.
  - simpl. case_decide; [done|apply IH].
Qed.

Lemma dict_get_None_names {W} k (d : list (string * W)) :
  k ∉ d.*1 → dict_get k d = None.
Proof.
  intros Hk. destruct (dict_get k d) eqn:H; [|done].
  by apply dict_get_Some_names in H.
Qed.

Lemma dict_set_length {W} k v (d : list (string * W)) :
  length (dict_set k v d) ≤ S (length d).
Proof.
  induction d as [|[k' v'] d IH]; simpl; [lia|]. case_decide; simpl; lia.
Qed.

Lemma oldest_in best (items : list (string * cache_entry V Time)) :
  oldest earlier best items ∈ best :: items.
Proof.
  revert best. induction items as [|x items IH]; intros best; simpl.
  - set_solver.
  - specialize (IH (if earlier (entry_timestamp x.2) (entry_timestamp best.2)
                    then x else best)).
    destruct (earlier _ _); set_solver.
Qed.
End OptimizerProps.

Section OptimizerTheorems.
Context {V Time : Type}.
Variable earlier : Time → Time → bool.
Variable expired : Time → Time → Z → bool.
Implicit Types (cache : list (string * cache_entry V Time)).

(** X18. [cache_result] with a capacity of at least one, on a cache that
    is within the capacity, stores the value under the key with the time
    of the call and the given ttl, and the cache is again within the
    capacity. *)
Theorem cache_result_within_capacity (cache_size : Z) key value ttl now cache :
  (1 ≤ cache_size)%Z → NoDup cache.*1 →
  (Z.of_nat (length cache) ≤ cache_size)%Z →
  ∃ cache',
    cache_result earlier cache_size key value ttl now cache = Returned cache'
    ∧ NoDup cache'.*1
    ∧ (Z.of_nat (length cache') ≤ cache_size)%Z
    ∧ dict_get key cache'
      = Some {| entry_value := value; entry_timestamp := now;
                entry_ttl := ttl |}.
Proof.
  intros Hsize ND Hlen. unfold cache_result. case_decide as Hfull.
  - destruct cache as [|item items]; [simpl in *; lia|].
    eexists. split; [done|].
    pose proof (oldest_in earlier item items) as Hin.
    assert ((oldest earlier item items).1 ∈ (item :: items).*1) as Hkey.
    { by apply list_elem_of_fmap_2. }
    destruct (dict_del_NoDup (oldest earlier item items).1 (item :: items) ND)
      as [ND' _].
    pose proof (dict_del_length _ _ Hkey) as Hdel.
    split; [by apply dict_set_NoDup|]. split; [|apply dict_get_set_eq].
    pose proof (dict_set_length key
                  {| entry_value := value; entry_timestamp := now;
                     entry_ttl := ttl |}
                  (dict_del (oldest earlier item items).1 (item :: items))).
    lia.
  - eexists. split; [done|]. split; [by apply dict_set_NoDup|].
    split; [|apply dict_get_set_eq].
    pose proof (dict_set_length key
                  {| entry_value := value; entry_timestamp := now;
                     entry_ttl := ttl |} cache).
    lia.
Qed.

(** X19. [cache_result] evicts before it looks at the key: on a full
    cache, storing a new value under a key that is already cached removes
    the oldest other entry all the same, and the cache ends one entry
    smaller than it was. *)
Theorem cache_result_update_of_full_cache (cache_size : Z) key value ttl now
    item items :
  NoDup (item :: items).*1 →
  (cache_size ≤ Z.of_nat (length (item :: items)))%Z →
  key ∈ (item :: items).*1 →
  key ≠ (oldest earlier item items).1 →
  ∃ cache',
    cache_result earlier cache_size key value ttl now (item :: items)
    = Returned cache'
    ∧ S (length cache') = length (item :: items)
    ∧ dict_get (oldest earlier item items).1 cache' = None
    ∧ is_Some (dict_get (oldest earlier item items).1 (item :: items)).
Proof.
  intros ND Hfull Hkey Hne. unfold cache_result. rewrite decide_True by done.
  eexists. split; [done|].
  pose proof (oldest_in earlier item items) as Hin.
  assert ((oldest earlier item items).1 ∈ (item :: items).*1) as Hold.
  { by apply list_elem_of_fmap_2. }
  destruct (dict_del_NoDup (oldest earlier item items).1 (item :: items) ND)
    as [ND' Hgone].
  assert (key ∈ (dict_del (oldest earlier item items).1 (item :: items)).*1)
    as Hkept.
  { destruct (dict_get_is_Some key (item :: items) Hkey) as [v Hv].
    apply (dict_get_Some_names key v). by rewrite dict_del_get_ne. }
  split; [|split; [|by apply dict_get_is_Some]].
  - rewrite <-(dict_del_length _ _ Hold). f_equal.
    rewrite <-!(length_fmap fst). by rewrite dict_set_names_present.
  - rewrite dict_get_set_ne by done. by apply dict_get_None_names.
Qed.

(** X20. A value stored with [cache_result] is what [get_cached_result]
    returns for its key, with the cache unchanged, unless its ttl has
    run out at the time of the lookup; then the lookup returns [None] and
    removes the entry, and a lookup after that returns [None] as well. *)
Theorem cache_round_trip (cache_size : Z) key value ttl now cache cache' :
  NoDup cache.*1 →
  cache_result earlier cache_size key value ttl now cache = Returned cache' →
  ∀ now',
    get_cached_result expired key now' cache'
    = match ttl with
      | Some seconds =>
          if expired now' now seconds
          then (None, dict_del key cache')
          else (Some value, cache')
      | None => (Some value, cache')
      end
    ∧ get_cached_result expired key now' (dict_del key cache')
      = (None, dict_del key cache').
Proof.
  intros ND Hrun now'.
  assert (dict_get key cache'
          = Some {| entry_value := value; entry_timestamp := now;
                    entry_ttl := ttl |} ∧ NoDup cache'.*1) as [Hget ND'].
  { unfold cache_result in Hrun. case_decide.
    - destruct cache as [|item items]; [done|]. injection Hrun as <-.
      split; [apply dict_get_set_eq|]. apply dict_set_NoDup.
      exact (proj1 (dict_del_NoDup _ (item :: items) ND)).
    - injection Hrun as <-. split; [apply dict_get_set_eq|].
      by apply dict_set_NoDup. }
  split.
  - unfold get_cached_result. rewrite Hget. simpl. by destruct ttl.
  - unfold get_cached_result. rewrite dict_get_None_names; [done|].
    exact (proj2 (dict_del_NoDup key cache' ND')).
Qed.
End OptimizerTheorems.

(** X21. [optimize_batch_processing] never returns processed data: its
    [_process_batch] returns [None], so with a positive batch size and
    non-empty data the first [extend] raises a [TypeError]; a batch size of
    zero raises the [ValueError] of [range], and in every other case the
    result is the empty list. *)
Theorem optimize_batch_processing_never_returns_data {A} (data : list A)
    (batch_size : Z) :
  optimize_batch_processing data batch_size
  = if decide (batch_size = 0)%Z
    then Raised (ValueError "range() arg 3 must not be zero")
    else if decide (0 < batch_size ∧ data ≠ [])%Z
         then Raised (TypeError "'NoneType' object is not iterable")
         else Returned [].
Proof.
  unfold optimize_batch_processing, range.
  destruct (decide (batch_size = 0)%Z) as [?|Hnz]; [done|].
  destruct (decide (batch_size < 0)%Z) as [Hneg|Hpos];
    destruct (decide (0 < batch_size ∧ data ≠ [])%Z) as [[Hlt Hdata]|Hnot].
  - lia.
  - done.
  - destruct data as [|x data]; [done|]. cbn [length range_from].
    by rewrite decide_True by lia.
  - destruct data as [|x data]; [done|]. destruct Hnot. split; [lia|done].
Qed.
(** * Examples of the further properties *)

Lemma execute_raises_only_stage_failures_witness :
  execute rejecting_stage 0 None
  = (Raised (stage_failed rejecting_stage (validation_failed rejecting_stage)),
     [CallProcessor "S"; CallValidator "S"])
  ∧ ∃ cause,
      stage_failed rejecting_stage (validation_failed rejecting_stage)
      = stage_failed rejecting_stage cause
      ∧ (processor rejecting_stage 0 = Raised cause
         ∨ ∃ result,
             processor rejecting_stage 0 = Returned result
             ∧ (validator rejecting_stage result = Raised cause
                ∨ (validator rejecting_stage result = Returned false
                   ∧ ((recovery rejecting_stage = None
                       ∧ cause = validation_failed rejecting_stage)
                      ∨ ∃ recover,
                          recovery rejecting_stage = Some recover
                          ∧ recover result None = Raised cause)))).
Proof.
  split; [reflexivity|].
  exact (execute_raises_only_stage_failures rejecting_stage 0 None
           (stage_failed rejecting_stage (validation_failed rejecting_stage))
           [CallProcessor "S"; CallValidator "S"] eq_refl).
Defined.

Lemma execute_returns_accepted_or_recovered_witness :
  execute recovering_stage 0 None
  = (Returned 101,
     [CallProcessor "S"; CallValidator "S"; CallRecovery "S"])
  ∧ ∃ result,
      processor recovering_stage 0 = Returned result
      ∧ ((validator recovering_stage result = Returned true ∧ 101 = result
          ∧ [CallProcessor "S"; CallValidator "S"; CallRecovery "S"]
            = [CallProcessor (name recovering_stage);
               CallValidator (name recovering_stage)])
         ∨ (validator recovering_stage result = Returned false
            ∧ (∃ recover, recovery recovering_stage = Some recover
                          ∧ recover result None = Returned 101)
            ∧ [CallProcessor "S"; CallValidator "S"; CallRecovery "S"]
              = [CallProcessor (name recovering_stage);
                 CallValidator (name recovering_stage);
                 CallRecovery (name recovering_stage)])).
Proof.
  split; [reflexivity|].
  exact (execute_returns_accepted_or_recovered recovering_stage 0 None 101
           [CallProcessor "S"; CallValidator "S"; CallRecovery "S"] eq_refl).
Defined.

Lemma execute_stages_runs_every_stage_once_witness :
  well_filed acb_manager
  ∧ execute_stages acb_manager 0 None
    = Some (Returned 3,
            [CallProcessor "A"; CallValidator "A"; CallProcessor "B";
             CallValidator "B"; CallProcessor "C"; CallValidator "C"])
  ∧ ∃ order,
      get_execution_order acb_manager = Some (Returned order)
      ∧ processor_calls
          [CallProcessor "A"; CallValidator "A"; CallProcessor "B";
           CallValidator "B"; CallProcessor "C"; CallValidator "C"]
        = order
      ∧ order = ["A"; "B"; "C"].
Proof.
  assert (well_filed acb_manager) as Hfiled.
  { exact (proj1 (proj2 (register_all_invariant
             [(demo_stage "A", None); (demo_stage "C", Some ["A"; "B"]);
              (demo_stage "B", Some ["A"])]
             new_manager new_manager_invariant))). }
  split; [exact Hfiled|]. split; [reflexivity|].
  destruct (execute_stages_runs_every_stage_once acb_manager 0 None 3
              [CallProcessor "A"; CallValidator "A"; CallProcessor "B";
               CallValidator "B"; CallProcessor "C"; CallValidator "C"]
              Hfiled eq_refl)
    as (order & Horder & Hcalls & _).
  exists order. split; [exact Horder|]. split; [exact Hcalls|].
  rewrite <- Hcalls. reflexivity.
Defined.


Lemma execute_stages_append_stage_witness :
  all_deps_registered single_manager
  ∧ (name (demo_stage "B") ∉ stage_names single_manager)
  ∧ get_execution_order
      (register_stage (demo_stage "B") (Some ["A"]) single_manager).2
    = Some (Returned ["A"; "B"])
  ∧ execute_stages
      (register_stage (demo_stage "B") (Some ["A"]) single_manager).2 0 None
    = (λ run, run ≫= λ r, execute (demo_stage "B") r None)
        <$> execute_stages single_manager 0 None.
Proof.
  assert (all_deps_registered single_manager) as Hdeps
    by decide_by_computation.
  assert (name (demo_stage "B") ∉ stage_names single_manager) as Hnew
    by decide_by_computation.
  split; [exact Hdeps|]. split; [exact Hnew|].
  destruct (execute_stages_append_stage single_manager (demo_stage "B")
              (Some ["A"]) 0 None Hdeps Hnew) as [(order & Hold & Hnew') Hrun].
  { intros d Hd. unfold depends_on in Hd. change (d ∈ ["A"]) in Hd.
    apply list_elem_of_singleton in Hd as ->. decide_by_computation. }
  split; [|exact Hrun].
  rewrite Hnew'. assert (order = ["A"]) as ->; [|reflexivity].
  assert (get_execution_order single_manager = Some (Returned ["A"])) as H
    by reflexivity.
  rewrite H in Hold. by injection Hold.
Defined.

Lemma process_batch_without_checkpoint_dir_witness :
  checkpointing None = false
  ∧ (process_batch times_ten first_in_order None [1; 2; 3] 2 true ∅).2 = ∅.
Proof.
  split; [reflexivity|].
  exact (process_batch_without_checkpoint_dir times_ten first_in_order None
           [1; 2; 3] 2 true ∅ eq_refl).
Defined.

Lemma process_batch_modes_agree_witness :
  all_succeed times_ten [1; 2; 3] [10; 20; 30]
  ∧ process_batch times_ten first_in_order (Some "ck") [1; 2; 3] 2 true ∅
    = process_batch times_ten first_in_order (Some "ck") [1; 2; 3] 2 false ∅.
Proof.
  assert (all_succeed times_ten [1; 2; 3] [10; 20; 30]) as Hall.
  { repeat constructor. }
  split; [exact Hall|].
  exact (process_batch_modes_agree times_ten first_in_order (Some "ck")
           [1; 2; 3] [10; 20; 30] 2 ∅ Hall).
Defined.

Lemma process_batch_sequential_first_failure_witness :
  (0 < 2)%Z
  ∧ all_succeed fails_on_one [2; 3] [20; 30]
  ∧ fails_on_one 1 = Raised (ValueError "bad text")
  ∧ (process_batch fails_on_one first_in_order (Some "ck")
       ([2; 3] ++ 1 :: [4]) 2 false ∅).1
    = Raised (ValueError "bad text").
Proof.
  assert (all_succeed fails_on_one [2; 3] [20; 30]) as Hall.
  { repeat constructor. }
  split; [reflexivity|]. split; [exact Hall|]. split; [reflexivity|].
  exact (process_batch_sequential_first_failure fails_on_one first_in_order
           (Some "ck") [2; 3] 1 [4] [20; 30] (ValueError "bad text") 2 ∅
           eq_refl Hall eq_refl).
Defined.

Lemma process_batch_keeps_earlier_checkpoints_witness :
  make_batches [2; 3; 1; 4] 2 = Returned [[2; 3]; [1; 4]]
  ∧ Forall2 (all_succeed fails_on_one) (take 1 [[2; 3]; [1; 4]]) [[20; 30]]
  ∧ [[2; 3]; [1; 4]] !! 1 = Some [1; 4]
  ∧ (∃ text, text ∈ [1; 4] ∧ fails fails_on_one text)
  ∧ ∃ e fs',
      process_batch fails_on_one first_in_order (Some "ck") [2; 3; 1; 4] 2
        true ∅ = (Raised e, fs')
      ∧ _load_checkpoint (Some "ck") 0 fs' = Some [20; 30]
      ∧ _load_checkpoint (Some "ck") 1 fs' = None.
Proof.
  assert (Forall2 (all_succeed fails_on_one) (take 1 [[2; 3]; [1; 4]])
            [[20; 30]]) as Hgood.
  { repeat constructor. }
  assert (∃ text, text ∈ [1; 4] ∧ fails fails_on_one text) as Hbad.
  { exists 1. split; [constructor|]. by exists (ValueError "bad text"). }
  split; [reflexivity|]. split; [exact Hgood|]. split; [reflexivity|].
  split; [exact Hbad|].
  destruct (process_batch_keeps_earlier_checkpoints fails_on_one
              first_in_order (Some "ck") [2; 3; 1; 4] 2 true ∅
              [[2; 3]; [1; 4]] 1 [1; 4] [[20; 30]]
              eq_refl Hgood eq_refl Hbad)
    as (e & fs' & Hrun & _ & _ & Hon).
  destruct (Hon eq_refl) as [Hload Hother].
  exists e, fs'. split; [exact Hrun|]. split.
  - exact (Hload 0 (Nat.lt_0_succ 0)).
  - unfold _load_checkpoint.
    rewrite (Hother (checkpoint_path (Some "ck") 1)); [reflexivity|].
    intros i Hi. assert (i = 0) as -> by lia. discriminate.
Defined.

Lemma process_batch_rerun_witness :
  (0 < 2)%Z
  ∧ all_succeed times_ten [1; 2; 3] [10; 20; 30]
  ∧ ∃ fs1,
      process_batch times_ten first_in_order (Some "ck") [1; 2; 3] 2 true ∅
      = (Returned [10; 20; 30], fs1)
      ∧ process_batch times_ten first_in_order (Some "ck") [1; 2; 3] 2 false
          fs1
        = (Returned [10; 20; 30], fs1).
Proof.
  assert (all_succeed times_ten [1; 2; 3] [10; 20; 30]) as Hall.
  { repeat constructor. }
  split; [reflexivity|]. split; [exact Hall|].
  exact (process_batch_rerun times_ten first_in_order (Some "ck") [1; 2; 3]
           [10; 20; 30] 2 true false ∅ eq_refl Hall).
Defined.

Lemma last_checkpoint_is_complete_witness :
  (0 < 2)%Z
  ∧ checkpointing (Some "ck") = true
  ∧ [1; 2; 3] ≠ []
  ∧ all_succeed times_ten [1; 2; 3] [10; 20; 30]
  ∧ ∃ batches fs',
      make_batches [1; 2; 3] 2 = Returned batches
      ∧ process_batch times_ten first_in_order (Some "ck") [1; 2; 3] 2 true ∅
        = (Returned [10; 20; 30], fs')
      ∧ 0 < length batches
      ∧ _load_checkpoint (Some "ck") (Z.of_nat (length batches) - 1) fs'
        = Some [10; 20; 30].
Proof.
  assert (all_succeed times_ten [1; 2; 3] [10; 20; 30]) as Hall.
  { repeat constructor. }
  assert ([1; 2; 3] ≠ @nil nat) as Hne by discriminate.
  split; [reflexivity|]. split; [reflexivity|]. split; [exact Hne|].
  split; [exact Hall|].
  exact (last_checkpoint_is_complete times_ten first_in_order (Some "ck")
           [1; 2; 3] [10; 20; 30] 2 true ∅ eq_refl eq_refl Hne Hall).
Defined.

Lemma cache_result_within_capacity_witness :
  (1 ≤ 2)%Z
  ∧ NoDup demo_cache.*1
  ∧ (Z.of_nat (length demo_cache) ≤ 2)%Z
  ∧ ∃ cache',
      cache_result clock_earlier 2 "c" 3 None 7 demo_cache = Returned cache'
      ∧ NoDup cache'.*1
      ∧ (Z.of_nat (length cache') ≤ 2)%Z
      ∧ dict_get "c" cache'
        = Some {| entry_value := 3; entry_timestamp := 7;
                  entry_ttl := None |}.
Proof.
  assert (NoDup demo_cache.*1) as ND by decide_by_computation.
  assert (Z.of_nat (length demo_cache) ≤ 2)%Z as Hlen by (simpl; lia).
  split; [lia|]. split; [exact ND|]. split; [exact Hlen|].
  exact (cache_result_within_capacity clock_earlier 2 "c" 3 None 7 demo_cache
           ltac:(lia) ND Hlen).
Defined.

Lemma cache_result_update_of_full_cache_witness :
  NoDup demo_cache.*1
  ∧ (2 ≤ Z.of_nat (length demo_cache))%Z
  ∧ "a" ∈ demo_cache.*1
  ∧ "a" ≠ "b"
  ∧ ∃ cache',
      cache_result clock_earlier 2 "a" 9 None 7 demo_cache = Returned cache'
      ∧ S (length cache') = length demo_cache
      ∧ dict_get "b" cache' = None
      ∧ is_Some (dict_get "b" demo_cache).
Proof.
  assert (NoDup demo_cache.*1) as ND by decide_by_computation.
  assert (2 ≤ Z.of_nat (length demo_cache))%Z as Hlen by (simpl; lia).
  assert ("a" ∈ demo_cache.*1) as Hin by decide_by_computation.
  assert ("a" ≠ "b") as Hne by discriminate.
  split; [exact ND|]. split; [exact Hlen|]. split; [exact Hin|].
  split; [exact Hne|].
  exact (cache_result_update_of_full_cache clock_earlier 2 "a" 9 None 7
           ("a", {| entry_value := 1; entry_timestamp := 5;
                    entry_ttl := None |})
           [("b", {| entry_value := 2; entry_timestamp := 3;
                     entry_ttl := None |})]
           ND Hlen Hin Hne).
Defined.

Lemma cache_round_trip_witness :
  NoDup demo_cache.*1
  ∧ cache_result clock_earlier 3 "c" 3 (Some 10%Z) 7 demo_cache
    = Returned
        (demo_cache
         ++ [("c", {| entry_value := 3; entry_timestamp := 7;
                      entry_ttl := Some 10%Z |})])
  ∧ get_cached_result clock_expired "c" 12
      (demo_cache
       ++ [("c", {| entry_value := 3; entry_timestamp := 7;
                    entry_ttl := Some 10%Z |})])
    = (Some 3,
       demo_cache
       ++ [("c", {| entry_value := 3; entry_timestamp := 7;
                    entry_ttl := Some 10%Z |})])
  ∧ get_cached_result clock_expired "c" 20
      (demo_cache
       ++ [("c", {| entry_value := 3; entry_timestamp := 7;
                    entry_ttl := Some 10%Z |})])
    = (None, demo_cache).
Proof.
  assert (NoDup demo_cache.*1) as ND by decide_by_computation.
  split; [exact ND|]. split; [reflexivity|].
  pose proof (cache_round_trip clock_earlier clock_expired 3 "c" 3
                (Some 10%Z) 7 demo_cache _ ND eq_refl) as Hrt.
  split.
  - exact (proj1 (Hrt 12)).
  - exact (proj1 (Hrt 20)).
Defined.
